(** * The autoregressive decoding loop of [Homework/01/scripts/generation.py]

    The Python function [generate] feeds a begin-of-sequence token to a
    recurrent model, turns the scores of the last position into a next token
    (arg-max, or temperature/top-k sampling), and repeats until [max_length]
    tokens were produced or the end-of-sequence token was chosen.

    Conventions of the embedding:
    - scores, probabilities and the temperature are exact rationals ([Q]);
      there is no NaN, no rounding and no overflow, equality of scores is
      [Qeq]. A float32 step can overflow (a tiny temperature turns the
      scaled scores into infinities and the probabilities into NaN, and
      [np.random.choice] raises): what is proved of the token of a sampling
      step is therefore stated of the steps that return one;
    - tensors of shape [1, n] are lists of length [n] (the batch dimension
      is always one in the source), the logits of shape [1, T, V] are a list
      of [T] score vectors;
    - exceptions are the [Raise] results of a small error monad;
    - the global numpy generator is a stream of uniform draws together with
      the number of draws consumed so far;
    - the forward calls [model(tokens, hx)] are recorded in the state,
      oldest first; [model.eval()] and [torch.no_grad()] only switch modes
      and leave no trace in the embedding. *)

From Stdlib Require Import List ZArith QArith Lia Lqa Bool Permutation PeanoNat.
From Stdlib Require String.
Import ListNotations.

Local Open Scope Q_scope.

(** ** Exceptions and the error monad *)

Inductive exn : Type :=
| IndexError
| ValueError.

(** [OutOfFuel] is not a Python outcome: it is what the bounded unrolling of
    the [while] loop answers when its fuel does not suffice. *)
Inductive outcome (A : Type) : Type :=
| Ok (a : A)
| Raise (e : exn)
| OutOfFuel.

Arguments Ok {A} a.
Arguments Raise {A} e.
Arguments OutOfFuel {A}.

Definition bind {A B : Type} (c : outcome A) (k : A -> outcome B) : outcome B :=
  match c with
  | Ok a => k a
  | Raise e => Raise e
  | OutOfFuel => OutOfFuel
  end.

Notation "x <- c1 ;; c2" := (bind c1 (fun x => c2))
  (at level 61, c1 at next level, right associativity).
Notation "' pat <- c1 ;; c2" := (bind c1 (fun x => match x with pat => c2 end))
  (at level 61, pat pattern, c1 at next level, right associativity).

(** ** Arithmetic on score vectors *)

Definition Qsum (l : list Q) : Q := fold_right Qplus 0 l.

Definition Qlt_bool (a b : Q) : bool := negb (Qle_bool b a).

Definition Qmaxb (a b : Q) : Q := if Qle_bool a b then b else a.

(** [np.cumsum] *)
Fixpoint cumsum_from (acc : Q) (l : list Q) : list Q :=
  match l with
  | [] => []
  | x :: r => (acc + x) :: cumsum_from (acc + x) r
  end.

Definition np_cumsum (l : list Q) : list Q := cumsum_from 0 l.

(** [ndarray.searchsorted(u, side='right')] on an ascending array: the first
    position whose entry is strictly above [u]. *)
Fixpoint searchsorted_right (cdf : list Q) (u : Q) : nat :=
  match cdf with
  | [] => O
  | c :: r => if Qle_bool c u then S (searchsorted_right r u) else O
  end.

(** [np.arange(n)] *)
Definition np_arange (n : nat) : list nat := seq 0 n.

(** Fancy indexing [a[idx]] with an array of non-negative indices. *)
Fixpoint np_take {A : Type} (a : list A) (idx : list nat) : outcome (list A) :=
  match idx with
  | [] => Ok []
  | i :: r =>
      match nth_error a i with
      | Some x => xs <- np_take a r ;; Ok (x :: xs)
      | None => Raise IndexError
      end
  end.

(** The slice [l[start:]] of Python, [start] of either sign. *)
Definition py_slice_from {A : Type} (start : Z) (l : list A) : list A :=
  let n := Z.of_nat (length l) in
  let s := if (start <? 0)%Z then Z.max 0 (start + n) else Z.min start n in
  skipn (Z.to_nat s) l.

(** ** [torch.argmax]: the index of the first maximal entry *)

Fixpoint argmax_from (best : nat) (bv : Q) (i : nat) (l : list Q) : nat :=
  match l with
  | [] => best
  | x :: r =>
      if Qlt_bool bv x then argmax_from i x (S i) r
      else argmax_from best bv (S i) r
  end.

Definition torch_argmax (v : list Q) : outcome nat :=
  match v with
  | [] => Raise IndexError
  | x :: r => Ok (argmax_from 0%nat x 1%nat r)
  end.

(** [logits[:, -1, :]]: the score vector of the last position. *)
Definition last_position (logits : list (list Q)) : outcome (list Q) :=
  match rev logits with
  | [] => Raise IndexError
  | v :: _ => Ok v
  end.

(** ** [np.random.choice(a, p=p)] for one draw

    The checks of numpy come first; the draw itself inverts the cumulative
    distribution at the uniform sample [u]. *)
Definition np_random_choice (a : list Z) (p : list Q) (u : Q) : outcome Z :=
  if (length a =? 0)%nat then Raise ValueError
  else if negb (length p =? length a)%nat then Raise ValueError
  else if existsb (fun x => Qlt_bool x 0) p then Raise ValueError
  else if negb (Qeq_bool (Qsum p) 1) then Raise ValueError
  else
    let cdf := np_cumsum p in
    let cdf := map (fun c => c / last cdf 0) cdf in
    let idx := searchsorted_right cdf u in
    match nth_error a idx with
    | Some t => Ok t
    | None => Raise IndexError
    end.

(** ** The collaborators *)

Record ByteTokenizer : Type := mkTokenizer {
  bos_token_id : Z;
  eos_token_id : Z;
  decode : list Z -> String.string
}.

Inductive control : Type :=
| Break
| Continue.

(** ** [generate] *)

Module generation.

Section Library.

(** The floating-point exponential of [F.softmax], and the two index
    permutations numpy leaves to its selection and sorting algorithms. *)
Variable exp : Q -> Q.
Variable introselect : list Q -> nat -> list nat.
Variable quicksort : list Q -> list nat.

(** The hidden state [hx] of the model; Python's [None] is [None]. *)
Variable HX : Type.

Definition Model : Type := list Z -> option HX -> list (list Q) * option HX.

(** [F.softmax(v, dim=-1)], stabilised by subtracting the maximum. *)
Definition F_softmax (v : list Q) : list Q :=
  match v with
  | [] => []
  | x :: r =>
      let m := fold_left Qmaxb r x in
      let e := map (fun y => exp (y - m)) v in
      let s := Qsum e in
      map (fun y => y / s) e
  end.

(** [np.argpartition(a, kth)]: [kth] may count from the end, and must lie
    in [-n, n). On an empty array numpy skips this check and returns the
    empty array; [sample_top_k] then raises the same [ValueError] two lines
    later, in [np.random.choice]. *)
Definition np_argpartition (a : list Q) (kth : Z) : outcome (list nat) :=
  let n := Z.of_nat (length a) in
  if ((- n <=? kth) && (kth <? n))%Z
  then Ok (introselect a (Z.to_nat (if (kth <? 0)%Z then kth + n else kth)%Z))
  else Raise ValueError.

(** [np.argsort(a)] *)
Definition np_argsort (a : list Q) : list nat := quicksort a.

Record DecodeState : Type := mkState {
  gen_ids : list Z;
  hx : option HX;
  tokens : list Z;
  model_calls : list (list Z * option HX);
  draws : nat
}.

Section Call.

Variable model : Model.
Variable tokenizer : ByteTokenizer.
Variable temperature : Q.
Variable top_k : option Z.
Variable max_length : Z.
Variable rng : nat -> Q.

(** [do_sample = temperature > 0] *)
Definition do_sample : bool := Qlt_bool 0 temperature.

(** Lines 86-89: the top-k branch. *)
Definition sample_top_k (k : Z) (p : list Q) (d : nat) : outcome (Z * nat) :=
  part <- np_argpartition p (- k) ;;
  let top_k_ids := py_slice_from (- k) part in
  pk <- np_take p top_k_ids ;;
  top_k_ids <- np_take top_k_ids (np_argsort (map Qopp pk)) ;;
  pk <- np_take p top_k_ids ;;
  let s := Qsum pk in
  let p := map (fun x => x / s) pk in
  new_token <- np_random_choice (map Z.of_nat top_k_ids) p (rng d) ;;
  Ok (new_token, S d).

(** Lines 75-91: from the scores of the last position to the new token.
    [d] counts the uniform draws consumed before the step. *)
Definition select (logits : list Q) (d : nat) : outcome (Z * nat) :=
  if negb do_sample then
    i <- torch_argmax logits ;;
    Ok (Z.of_nat i, d)
  else
    let logits := map (fun x => x / temperature) logits in
    let p := F_softmax logits in
    let ids := np_arange (length p) in
    match top_k with
    | Some k => sample_top_k k p d
    | None =>
        new_token <- np_random_choice (map Z.of_nat ids) p (rng d) ;;
        Ok (new_token, S d)
    end.

(** Lines 68-96: one iteration of the loop. *)
Definition loop_body (st : DecodeState) : outcome (control * DecodeState) :=
  let '(logits, hx') := model (tokens st) (hx st) in
  let calls := (model_calls st ++ [(tokens st, hx st)])%list in
  logits <- last_position logits ;;
  '(new_token, d) <- select logits (draws st) ;;
  if (new_token =? eos_token_id tokenizer)%Z
  then Ok (Break, mkState (gen_ids st) hx' (tokens st) calls d)
  else Ok (Continue,
           mkState (gen_ids st ++ [new_token])%list hx' [new_token] calls d).

(** Lines 67-96: [while len(gen_ids) < max_length]. *)
Fixpoint while_loop (fuel : nat) (st : DecodeState) : outcome DecodeState :=
  if (Z.of_nat (length (gen_ids st)) <? max_length)%Z then
    match fuel with
    | O => OutOfFuel
    | S fuel' =>
        '(c, st') <- loop_body st ;;
        match c with
        | Break => Ok st'
        | Continue => while_loop fuel' st'
        end
    end
  else Ok st.

(** Lines 61-64 *)
Definition initial_state : DecodeState :=
  mkState [] None [bos_token_id tokenizer] [] O.

(** The run of [generate] up to the final state of the loop. *)
Definition generate_run : outcome DecodeState :=
  while_loop (Z.to_nat max_length) initial_state.

Definition generate : outcome String.string :=
  st <- generate_run ;;
  Ok (decode tokenizer (gen_ids st)).

(** The states the loop passes through at the head of an iteration. *)
Inductive reachable : DecodeState -> Prop :=
| reach_init : reachable initial_state
| reach_step st st' :
    reachable st ->
    (Z.of_nat (length (gen_ids st)) < max_length)%Z ->
    loop_body st = Ok (Continue, st') ->
    reachable st'.

(** The calls a run that emitted [ids] must have made, and the call it
    would make next: the first call gets the begin token and no state,
    every later call the token just emitted and the state the previous
    call returned. *)
Definition feed (acc : list (list Z * option HX) * (list Z * option HX))
           (new_token : Z) : list (list Z * option HX) * (list Z * option HX) :=
  let '(log, (inp, h)) := acc in
  ((log ++ [(inp, h)])%list, ([new_token], snd (model inp h))).

Definition expected_calls (ids : list Z)
  : list (list Z * option HX) * (list Z * option HX) :=
  fold_left feed ids ([], ([bos_token_id tokenizer], None)).

End Call.

End Library.

End generation.

Import generation.

Arguments gen_ids {HX} _.
Arguments hx {HX} _.
Arguments tokens {HX} _.
Arguments model_calls {HX} _.
Arguments draws {HX} _.
Arguments mkState {HX} _ _ _ _ _.

(** ** Executable instances of the library parameters

    A stable insertion sort of the indices by ascending value is one result
    [np.argsort] and [np.argpartition] are allowed to give; a positive
    rational function stands for the exponential. *)

Fixpoint insert_index (a : list Q) (i : nat) (l : list nat) : list nat :=
  match l with
  | [] => [i]
  | j :: r =>
      if Qle_bool (nth i a 0) (nth j a 0) then i :: l
      else j :: insert_index a i r
  end.

Definition sorted_indices (a : list Q) : list nat :=
  fold_right (insert_index a) [] (seq 0 (length a)).

Definition sort_select (a : list Q) (kth : nat) : list nat := sorted_indices a.

(** Positive and increasing as the exponential is, so it ranks the ids as
    the exponential does; its probabilities differ, and the examples below
    draw where both give the same id. *)
Definition rat_exp (x : Q) : Q :=
  if Qle_bool 0 x then 1 + x else 1 / (1 - x).

(** A model over a vocabulary of four ids whose scores peak at the id after
    the one it is fed; it counts its calls in the hidden state. *)
Definition successor_model : Model nat :=
  fun toks h =>
    let t := last toks 0%Z in
    let n := match h with Some n => S n | None => 1%nat end in
    ([map (fun i => if (Z.of_nat i =? (t + 1) mod 4)%Z then 2 else inject_Z (Z.of_nat i) / 4)
          (seq 0 4)], Some n).

(** The same model, answering with one more position in front. *)
Definition padded_model : Model nat :=
  fun toks h =>
    let '(logits, h') := successor_model toks h in
    ([9; 9; 9; 9] :: logits, h').

Definition plain_tokenizer : ByteTokenizer :=
  mkTokenizer 0 3 (fun ids => String.string_of_list_ascii
                                (map (fun z => Ascii.ascii_of_nat (Z.to_nat z + 48)) ids)).

Definition half_rng : nat -> Q := fun _ => 1 # 2.

Definition high_rng : nat -> Q := fun _ => 9 # 10.

Definition top_rng : nat -> Q := fun _ => 19 # 20.

(** The scores [successor_model] gives for the begin token. *)
Definition first_scores : list Q := [0 # 4; 2; 2 # 4; 3 # 4].

(** A tokenizer whose end id is the id [successor_model] prefers first. *)
Definition early_tokenizer : ByteTokenizer :=
  mkTokenizer 0 1 (decode plain_tokenizer).

(** A model that answers with no position, and one whose vocabulary is
    empty. *)
Definition silent_model : Model nat := fun _ h => ([], h).

Definition empty_vocabulary_model : Model nat := fun _ h => ([[]], h).

(** ** Vocabulary of the statements *)

(** [i] is the position of the first maximal entry of [v]. *)
Definition first_max (v : list Q) (i : nat) : Prop :=
  (i < length v)%nat /\
  (forall j, (j < length v)%nat -> nth j v 0 <= nth i v 0) /\
  (forall j, (j < i)%nat -> nth j v 0 < nth i v 0).

(** The state is in step with its emitted tokens: the calls made and the
    call to come are the expected ones. *)
Definition synced {HX : Type} (model : Model HX) (tokenizer : ByteTokenizer)
           (st : DecodeState HX) : Prop :=
  expected_calls HX model tokenizer (gen_ids st)
  = (model_calls st, (tokens st, hx st)).

(** The number of ids whose probability is strictly above that of [i]. *)
Definition rank (p : list Q) (i : nat) : nat :=
  length (filter (fun j => Qlt_bool (nth i p 0) (nth j p 0)) (seq 0 (length p))).

(** The token [t] is one of the [k] most probable ids of [p]: it is an id,
    and fewer than [k] ids are strictly more probable. *)
Definition in_top_k (p : list Q) (k : Z) (t : Z) : bool :=
  ((0 <=? t) && (t <? Z.of_nat (length p)) &&
   (Z.of_nat (rank p (Z.to_nat t)) <? k))%Z.

(** [cands] are [k] ids of highest probability. *)
Definition top_k_set (p : list Q) (k : Z) (cands : list nat) : Prop :=
  NoDup cands /\
  Z.of_nat (length cands) = k /\
  (forall c, In c cands -> (c < length p)%nat) /\
  (forall c o, In c cands -> (o < length p)%nat -> ~ In o cands ->
               nth o p 0 <= nth c p 0).

(** The candidates lines 86-87 compute for [1 <= k <= length p]: the last
    [k] indices of the partition, reordered by the sort. *)
Definition top_k_candidates (introselect : list Q -> nat -> list nat)
           (quicksort : list Q -> list nat) (p : list Q) (k : Z) : list nat :=
  let kth := (length p - Z.to_nat k)%nat in
  let slice := skipn kth (introselect p kth) in
  map (fun i => nth i slice O)
      (quicksort (map Qopp (map (fun c => nth c p 0) slice))).

(** [q] is a probability distribution over the ids [ids], and [t] is the id
    the uniform sample [u] selects: the one whose interval of the cumulative
    distribution contains [u]. *)
Definition sampled_from (ids : list nat) (q : list Q) (u : Q) (t : Z) : Prop :=
  length q = length ids /\
  Forall (fun x => 0 <= x) q /\
  Qsum q == 1 /\
  exists idx i, nth_error ids idx = Some i /\ t = Z.of_nat i /\
                Qsum (firstn idx q) <= u < Qsum (firstn (S idx) q).

(** The probabilities of [cands], renormalised. *)
Definition renormalized (p : list Q) (cands : list nat) : list Q :=
  let pk := map (fun c => nth c p 0) cands in
  map (fun x => x / Qsum pk) pk.

Section SpecWords.

Variable exp : Q -> Q.

(** Stated from the specification: [p] is the softmax of the scores [s],
    computed after subtracting their maximum [m]. *)
Definition is_softmax (s p : list Q) : Prop :=
  length p = length s /\
  exists m, (exists i, (i < length s)%nat /\ nth i s 0 == m) /\
            (forall i, (i < length s)%nat -> nth i s 0 <= m) /\
            forall i, (i < length s)%nat ->
              nth i p 0 == exp (nth i s 0 - m) / Qsum (map (fun y => exp (y - m)) s).

(** Stated from the specification, section 4.1, step 2b, for a positive
    temperature: the candidates [ids] and their probabilities [q] the step
    samples from. The scores are scaled by [1/temperature] and turned into
    probabilities by the softmax; with [top_k] set the candidates are
    [top_k] ids of highest probability, renormalised to sum to one, and
    otherwise all ids with their probabilities. Candidates and
    probabilities are fixed before the draw. *)
Definition sampling_policy (temperature : Q) (top_k : option Z)
           (logits : list Q) (ids : list nat) (q : list Q) : Prop :=
  exists p,
    is_softmax (map (fun x => x * (1 / temperature)) logits) p /\
    Forall (fun x => 0 <= x) p /\
    Qsum p == 1 /\
    match top_k with
    | Some k => top_k_set p k ids /\ q = renormalized p ids
    | None => ids = seq 0 (length p) /\ q = p
    end.

End SpecWords.

(** Stated from the specification, section 7: the configurations it calls
    invalid, for a vocabulary of [V] ids. *)
Definition invalid_config (V : nat) (temperature : Q) (top_k : option Z)
           (max_length : Z) : bool :=
  Qlt_bool temperature 0
  || match top_k with
     | Some k => (k <=? 0)%Z || (Z.of_nat V <? k)%Z
     | None => false
     end
  || (max_length <? 0)%Z.

(** ** What the statements assume of the library *)

Definition exp_positive (exp : Q -> Q) : Prop := forall x, 0 < exp x.

(** [np.argpartition]: a permutation of the indices with the entry of
    position [kth] in its sorted place, no larger entry before it and no
    smaller entry after it. *)
Definition selection_contract (sel : list Q -> nat -> list nat) : Prop :=
  forall a kth, (kth < length a)%nat ->
    Permutation (sel a kth) (seq 0 (length a)) /\
    (forall i, (i <= kth)%nat ->
       nth (nth i (sel a kth) O) a 0 <= nth (nth kth (sel a kth) O) a 0) /\
    (forall j, (kth <= j)%nat -> (j < length a)%nat ->
       nth (nth kth (sel a kth) O) a 0 <= nth (nth j (sel a kth) O) a 0).

(** Positions [i <= j] of [l] hold indices of ascending value. *)
Definition ascending (a : list Q) (l : list nat) : Prop :=
  forall i j, (i <= j)%nat -> (j < length l)%nat ->
              nth (nth i l O) a 0 <= nth (nth j l O) a 0.

(** [np.argsort]: a permutation of the indices that puts the entries in
    ascending order. *)
Definition sorting_contract (srt : list Q -> list nat) : Prop :=
  forall a, Permutation (srt a) (seq 0 (length a)) /\ ascending a (srt a).

(** [random_sample] draws from the interval [0, 1). *)
Definition uniform_stream (rng : nat -> Q) : Prop :=
  forall n, 0 <= rng n < 1.

(** * Properties *)

(** ** The error monad *)

Lemma bind_Ok_inv {A B : Type} (c : outcome A) (k : A -> outcome B) (b : B) :
  bind c k = Ok b -> exists a, c = Ok a /\ k a = Ok b.
Proof.
  destruct c as [a | e | ]; simpl; intros H; try discriminate.
  exists a; split; [reflexivity | exact H].
Qed.

(** ** Comparisons *)

Lemma Qlt_bool_iff (a b : Q) : Qlt_bool a b = true <-> a < b.
Proof.
  unfold Qlt_bool. rewrite negb_true_iff.
  split; intros H.
  - apply Qnot_le_lt. intros Hle. apply Qle_bool_iff in Hle. congruence.
  - destruct (Qle_bool b a) eqn:E; [ | reflexivity].
    apply Qle_bool_iff in E. exfalso. exact (Qlt_not_le _ _ H E).
Qed.

Lemma Qlt_bool_false_iff (a b : Q) : Qlt_bool a b = false <-> b <= a.
Proof.
  unfold Qlt_bool. rewrite negb_false_iff. apply Qle_bool_iff.
Qed.

(** ** [torch.argmax] *)

Lemma first_max_snoc_new (pre : list Q) (best : nat) (x : Q) :
  first_max pre best -> nth best pre 0 < x ->
  first_max (pre ++ [x]) (length pre).
Proof.
  intros (Hb & Hmax & Hfirst) Hlt.
  assert (Hx : nth (length pre) (pre ++ [x]) 0 = x)
    by (rewrite app_nth2, Nat.sub_diag by lia; reflexivity).
  unfold first_max. rewrite Hx, length_app. simpl. repeat split.
  - lia.
  - intros j Hj. destruct (Nat.eq_dec j (length pre)) as [-> | Hne].
    + rewrite Hx. apply Qle_refl.
    + rewrite app_nth1 by lia. apply Qlt_le_weak.
      eapply Qle_lt_trans; [apply Hmax; lia | exact Hlt].
  - intros j Hj. rewrite app_nth1 by lia.
    eapply Qle_lt_trans; [apply Hmax; lia | exact Hlt].
Qed.

Lemma first_max_snoc_keep (pre : list Q) (best : nat) (x : Q) :
  first_max pre best -> x <= nth best pre 0 ->
  first_max (pre ++ [x]) best.
Proof.
  intros (Hb & Hmax & Hfirst) Hle.
  unfold first_max. rewrite length_app. simpl.
  rewrite (app_nth1 pre [x] 0 Hb). repeat split.
  - lia.
  - intros j Hj. destruct (Nat.eq_dec j (length pre)) as [-> | Hne].
    + rewrite app_nth2, Nat.sub_diag by lia. exact Hle.
    + rewrite app_nth1 by lia. apply Hmax; lia.
  - intros j Hj. rewrite app_nth1 by lia. apply Hfirst; exact Hj.
Qed.

Lemma argmax_from_first_max (l pre : list Q) (best : nat) :
  first_max pre best ->
  first_max (pre ++ l) (argmax_from best (nth best pre 0) (length pre) l).
Proof.
  revert pre best.
  induction l as [ | x r IH]; intros pre best Hfm; simpl.
  - rewrite app_nil_r. exact Hfm.
  - replace (pre ++ x :: r)%list with ((pre ++ [x]) ++ r)%list
      by (rewrite <- app_assoc; reflexivity).
    replace (S (length pre)) with (length (pre ++ [x]))
      by (rewrite length_app; simpl; lia).
    destruct (Qlt_bool (nth best pre 0) x) eqn:E.
    + apply Qlt_bool_iff in E.
      pose proof (first_max_snoc_new pre best x Hfm E) as Hnew.
      specialize (IH (pre ++ [x])%list (length pre) Hnew).
      rewrite app_nth2, Nat.sub_diag in IH by lia. exact IH.
    + apply Qlt_bool_false_iff in E.
      pose proof (first_max_snoc_keep pre best x Hfm E) as Hkeep.
      specialize (IH (pre ++ [x])%list best Hkeep).
      destruct Hfm as (Hb & _).
      rewrite (app_nth1 pre [x] 0 Hb) in IH. exact IH.
Qed.

Lemma torch_argmax_first_max (v : list Q) :
  v <> [] -> exists i, torch_argmax v = Ok i /\ first_max v i.
Proof.
  destruct v as [ | x r]; [congruence | intros _].
  exists (argmax_from 0%nat x 1%nat r). split; [reflexivity | ].
  apply (argmax_from_first_max r [x] 0%nat).
  unfold first_max; simpl. repeat split.
  - lia.
  - intros j Hj. assert (j = 0%nat) as -> by lia. apply Qle_refl.
  - intros j Hj. lia.
Qed.

Lemma first_max_unique (v : list Q) (i j : nat) :
  first_max v i -> first_max v j -> i = j.
Proof.
  intros (Hi & Hmi & Hfi) (Hj & Hmj & Hfj).
  destruct (Nat.lt_trichotomy i j) as [Hlt | [Heq | Hgt]]; [ | exact Heq | ].
  - exfalso. specialize (Hfj i Hlt). specialize (Hmi j Hj).
    exact (Qlt_not_le _ _ Hfj Hmi).
  - exfalso. specialize (Hfi j Hgt). specialize (Hmj i Hi).
    exact (Qlt_not_le _ _ Hfi Hmj).
Qed.

(** ** Sums of probabilities *)

Lemma Qsum_map_div (l : list Q) (s : Q) :
  Qsum (map (fun y => y / s) l) == Qsum l / s.
Proof.
  induction l as [ | x r IH]; simpl.
  - unfold Qdiv. ring.
  - rewrite IH. unfold Qdiv. ring.
Qed.

Lemma Qsum_nonneg (l : list Q) : Forall (fun x => 0 <= x) l -> 0 <= Qsum l.
Proof.
  induction 1 as [ | x r Hx Hr IH]; simpl.
  - apply Qle_refl.
  - lra.
Qed.

Lemma Qsum_pos (l : list Q) :
  l <> [] -> Forall (fun x => 0 < x) l -> 0 < Qsum l.
Proof.
  intros Hne Hall. destruct Hall as [ | x r Hx Hr]; [congruence | ].
  simpl.
  assert (0 <= Qsum r).
  { apply Qsum_nonneg. eapply Forall_impl; [ | exact Hr].
    intros a Ha. apply Qlt_le_weak. exact Ha. }
  lra.
Qed.

Lemma Qdiv_pos (a s : Q) : 0 < a -> 0 < s -> 0 < a / s.
Proof.
  intros Ha Hs. unfold Qdiv. apply Qmult_lt_0_compat; [exact Ha | ].
  apply Qinv_lt_0_compat. exact Hs.
Qed.

Lemma Qsum_normalized (l : list Q) :
  0 < Qsum l -> Qsum (map (fun y => y / Qsum l) l) == 1.
Proof.
  intros Hs. rewrite Qsum_map_div. field. lra.
Qed.

Lemma Forall_normalized_pos (l : list Q) (s : Q) :
  0 < s -> Forall (fun x => 0 < x) l ->
  Forall (fun x => 0 < x) (map (fun y => y / s) l).
Proof.
  intros Hs Hall. apply Forall_map.
  eapply Forall_impl; [ | exact Hall].
  intros a Ha. simpl. apply Qdiv_pos; assumption.
Qed.

Lemma Forall_pos_nonneg (l : list Q) :
  Forall (fun x => 0 < x) l -> Forall (fun x => 0 <= x) l.
Proof.
  apply Forall_impl. intros a Ha. apply Qlt_le_weak. exact Ha.
Qed.

(** ** The maximum subtracted by the softmax *)

Lemma Qmaxb_cases (a b : Q) :
  (Qmaxb a b = a /\ b <= a) \/ (Qmaxb a b = b /\ a <= b).
Proof.
  unfold Qmaxb. destruct (Qle_bool a b) eqn:E.
  - right. split; [reflexivity | apply Qle_bool_iff; exact E].
  - left. split; [reflexivity | ].
    apply Qlt_le_weak. apply Qlt_bool_iff. unfold Qlt_bool. rewrite E. reflexivity.
Qed.

Lemma fold_Qmaxb_max (r : list Q) (x : Q) :
  let m := fold_left Qmaxb r x in
  (exists i, (i < length (x :: r))%nat /\ nth i (x :: r) 0 = m) /\
  (forall i, (i < length (x :: r))%nat -> nth i (x :: r) 0 <= m).
Proof.
  revert x. induction r as [ | y r IH]; intros x; simpl.
  - split.
    + exists 0%nat. split; [lia | reflexivity].
    + intros i Hi. assert (i = 0%nat) as -> by lia. apply Qle_refl.
  - specialize (IH (Qmaxb x y)). simpl in IH.
    destruct IH as ((i & Hi & Hnth) & Hmax).
    assert (Hx : x <= fold_left Qmaxb r (Qmaxb x y)).
    { eapply Qle_trans; [ | apply (Hmax 0%nat); lia]. simpl.
      destruct (Qmaxb_cases x y) as [(-> & _) | (-> & H)]; [apply Qle_refl | exact H]. }
    assert (Hy : y <= fold_left Qmaxb r (Qmaxb x y)).
    { eapply Qle_trans; [ | apply (Hmax 0%nat); lia]. simpl.
      destruct (Qmaxb_cases x y) as [(-> & H) | (-> & _)]; [exact H | apply Qle_refl]. }
    split.
    + destruct i as [ | i].
      * simpl in Hnth.
        destruct (Qmaxb_cases x y) as [(E & _) | (E & _)].
        -- exists 0%nat. split; [lia | ]. simpl. rewrite <- Hnth. symmetry; exact E.
        -- exists 1%nat. split; [lia | ]. simpl. rewrite <- Hnth. symmetry; exact E.
      * exists (S (S i)). split; [lia | exact Hnth].
    + intros j Hj. destruct j as [ | [ | j]].
      * exact Hx.
      * exact Hy.
      * apply (Hmax (S j)). lia.
Qed.

(** ** Fancy indexing *)

Lemma np_take_Ok {A : Type} (a : list A) (idx : list nat) (d : A) :
  Forall (fun i => (i < length a)%nat) idx ->
  np_take a idx = Ok (map (fun i => nth i a d) idx).
Proof.
  induction 1 as [ | i r Hi Hr IH]; simpl; [reflexivity | ].
  rewrite (nth_error_nth' a d Hi), IH. reflexivity.
Qed.

Lemma map_nth_seq {A : Type} (l : list A) (d : A) :
  map (fun i => nth i l d) (seq 0 (length l)) = l.
Proof.
  apply (nth_ext _ _ d d).
  - rewrite length_map, length_seq. reflexivity.
  - intros n Hn. rewrite length_map, length_seq in Hn.
    rewrite (nth_indep _ d (nth 0%nat l d))
      by (rewrite length_map, length_seq; exact Hn).
    rewrite (map_nth (fun i => nth i l d) (seq 0 (length l)) 0%nat n).
    rewrite seq_nth by exact Hn. reflexivity.
Qed.

Lemma Permutation_map_nth {A : Type} (l : list A) (s : list nat) (d : A) :
  Permutation s (seq 0 (length l)) ->
  Permutation (map (fun i => nth i l d) s) l.
Proof.
  intros Hp.
  eapply Permutation_trans; [apply Permutation_map; exact Hp | ].
  rewrite map_nth_seq. apply Permutation_refl.
Qed.

Lemma Permutation_seq_bound (s : list nat) (n : nat) :
  Permutation s (seq 0 n) -> Forall (fun i => (i < n)%nat) s.
Proof.
  intros Hp. apply Forall_forall. intros i Hi.
  apply (Permutation_in _ Hp) in Hi. apply in_seq in Hi. lia.
Qed.

(** ** [np.random.choice] *)

Lemma cumsum_from_last (l : list Q) (acc : Q) :
  l <> [] -> last (cumsum_from acc l) 0 == acc + Qsum l.
Proof.
  revert acc. induction l as [ | x r IH]; intros acc Hne; [congruence | ].
  destruct r as [ | y r].
  - simpl. ring.
  - change (last (cumsum_from acc (x :: y :: r)) 0)
      with (last (cumsum_from (acc + x) (y :: r)) 0).
    rewrite IH by discriminate. simpl. ring.
Qed.

(** The position found in the normalised cumulative sums is the one whose
    interval contains the sample. *)
Lemma searchsorted_cumsum (q : list Q) (acc L u : Q) :
  L == 1 -> acc <= u -> u < acc + Qsum q ->
  let idx := searchsorted_right (map (fun c => c / L) (cumsum_from acc q)) u in
  (idx < length q)%nat /\
  acc + Qsum (firstn idx q) <= u /\
  u < acc + Qsum (firstn (S idx) q).
Proof.
  intros HL. revert acc.
  induction q as [ | x r IH]; intros acc Hlo Hhi; simpl in *.
  - exfalso. lra.
  - assert (E : (acc + x) / L == acc + x) by (rewrite HL; field).
    rewrite E.
    destruct (Qle_bool (acc + x) u) eqn:Hc.
    + apply Qle_bool_iff in Hc.
      destruct (IH (acc + x) Hc) as (Hidx & Hl & Hu); [lra | ].
      split; [lia | ]. simpl in Hu. split; simpl; lra.
    + assert (Hlt : u < acc + x).
      { apply Qlt_bool_iff. unfold Qlt_bool. rewrite Hc. reflexivity. }
      split; [lia | ]. simpl. split; lra.
Qed.

Lemma existsb_negative_false (q : list Q) :
  Forall (fun x => 0 <= x) q -> existsb (fun x => Qlt_bool x 0) q = false.
Proof.
  induction 1 as [ | x r Hx Hr IH]; simpl; [reflexivity | ].
  rewrite IH, orb_false_r. apply Qlt_bool_false_iff. exact Hx.
Qed.

Lemma np_random_choice_sampled (ids : list nat) (q : list Q) (u : Q) :
  ids <> [] ->
  length q = length ids ->
  Forall (fun x => 0 <= x) q ->
  Qsum q == 1 ->
  0 <= u < 1 ->
  exists t,
    np_random_choice (map Z.of_nat ids) q u = Ok t /\ sampled_from ids q u t.
Proof.
  intros Hne Hlen Hpos Hsum [Hu0 Hu1].
  unfold np_random_choice.
  rewrite length_map.
  destruct ids as [ | i0 ids']; [congruence | ].
  set (ids := i0 :: ids') in *.
  assert (Hq : q <> []) by (intros ->; discriminate).
  change (length ids =? 0)%nat with false. cbv iota.
  rewrite Hlen, Nat.eqb_refl. simpl negb. cbv iota.
  rewrite (existsb_negative_false q Hpos).
  rewrite (Qeq_eq_bool _ _ Hsum). simpl negb. cbv iota zeta.
  assert (HL : last (np_cumsum q) 0 == 1).
  { unfold np_cumsum. rewrite cumsum_from_last by exact Hq. rewrite Hsum. ring. }
  destruct (searchsorted_cumsum q 0 (last (np_cumsum q) 0) u HL Hu0) as (Hidx & Hl & Hh).
  { rewrite Hsum. lra. }
  fold (np_cumsum q) in Hidx, Hl, Hh.
  set (idx := searchsorted_right
                (map (fun c => c / last (np_cumsum q) 0) (np_cumsum q)) u) in *.
  assert (Hi : (idx < length ids)%nat) by (rewrite <- Hlen; exact Hidx).
  destruct (nth_error ids idx) as [i | ] eqn:Hnth;
    [ | apply nth_error_None in Hnth; lia].
  exists (Z.of_nat i).
  rewrite nth_error_map, Hnth. simpl. split; [reflexivity | ].
  unfold sampled_from. repeat split; try assumption.
  exists idx, i. split; [exact Hnth | split; [reflexivity | ]].
  split; lra.
Qed.

Lemma np_random_choice_In (a : list Z) (q : list Q) (u : Q) (t : Z) :
  np_random_choice a q u = Ok t -> In t a.
Proof.
  unfold np_random_choice. intros H.
  repeat match type of H with
         | (if ?b then _ else _) = _ => destruct b; try discriminate
         end.
  cbv zeta in H.
  match type of H with
  | match nth_error a ?i with _ => _ end = _ =>
      destruct (nth_error a i) as [t' | ] eqn:E; [ | discriminate]
  end.
  inversion H; subst t'. eapply nth_error_In; exact E.
Qed.

(** ** Suffixes of a list without duplicates *)

Lemma In_skipn_nth {A : Type} (m : nat) (l : list A) (c d : A) :
  In c (skipn m l) ->
  exists j, (m <= j)%nat /\ (j < length l)%nat /\ nth j l d = c.
Proof.
  intros Hin. destruct (In_nth _ _ d Hin) as (j & Hj & Hnth).
  rewrite length_skipn in Hj. rewrite nth_skipn in Hnth.
  exists (m + j)%nat. repeat split; [lia | lia | exact Hnth].
Qed.

Lemma nth_In_skipn {A : Type} (m j : nat) (l : list A) (d : A) :
  (m <= j)%nat -> (j < length l)%nat -> In (nth j l d) (skipn m l).
Proof.
  intros Hm Hj. replace j with (m + (j - m))%nat by lia.
  rewrite <- nth_skipn. apply nth_In. rewrite length_skipn. lia.
Qed.

Lemma NoDup_skipn {A : Type} (m : nat) (l : list A) : NoDup l -> NoDup (skipn m l).
Proof.
  intros Hnd. rewrite <- (firstn_skipn m l) in Hnd.
  eapply NoDup_app_remove_l. exact Hnd.
Qed.

(** ** The rank of a member of a top-k set *)

Lemma top_k_set_rank (p : list Q) (k : Z) (cands : list nat) (c : nat) :
  top_k_set p k cands -> In c cands -> (Z.of_nat (rank p c) < k)%Z.
Proof.
  intros (Hnd & Hlen & Hbound & Hdom) Hin.
  unfold rank.
  set (above := filter (fun j => Qlt_bool (nth c p 0) (nth j p 0)) (seq 0 (length p))).
  assert (Hincl : incl above (remove Nat.eq_dec c cands)).
  { intros j Hj. apply filter_In in Hj. destruct Hj as [Hseq Hlt].
    apply in_seq in Hseq. apply Qlt_bool_iff in Hlt.
    apply in_in_remove.
    - intros ->. exact (Qlt_irrefl _ Hlt).
    - destruct (in_dec Nat.eq_dec j cands) as [Hj | Hj]; [exact Hj | exfalso].
      assert (Hle : nth j p 0 <= nth c p 0) by (apply Hdom; [exact Hin | lia | exact Hj]).
      exact (Qlt_not_le _ _ Hlt Hle). }
  assert (Hnd' : NoDup above) by (apply NoDup_filter, seq_NoDup).
  pose proof (NoDup_incl_length Hnd' Hincl) as H1.
  pose proof (remove_length_lt Nat.eq_dec cands c Hin) as H2.
  lia.
Qed.

Section Decoding.

Variable exp : Q -> Q.
Variable introselect : list Q -> nat -> list nat.
Variable quicksort : list Q -> list nat.
Variable HX : Type.

Local Abbreviation select := (generation.select exp introselect quicksort).
Local Abbreviation sample_top_k := (generation.sample_top_k introselect quicksort).
Local Abbreviation loop_body := (generation.loop_body exp introselect quicksort HX).
Local Abbreviation while_loop := (generation.while_loop exp introselect quicksort HX).
Local Abbreviation generate_run := (generation.generate_run exp introselect quicksort HX).
Local Abbreviation generate := (generation.generate exp introselect quicksort HX).
Local Abbreviation reachable := (generation.reachable exp introselect quicksort HX).

(** ** The branch taken by [select] *)

Lemma do_sample_iff (temperature : Q) :
  do_sample temperature = true <-> 0 < temperature.
Proof. unfold do_sample. apply Qlt_bool_iff. Qed.

Lemma select_greedy (temperature : Q) (top_k : option Z) (rng : nat -> Q)
      (logits : list Q) (d : nat) :
  temperature <= 0 ->
  select temperature top_k rng logits d
  = (i <- torch_argmax logits ;; Ok (Z.of_nat i, d)).
Proof.
  intros Hle. unfold generation.select.
  assert (E : do_sample temperature = false).
  { unfold do_sample. apply Qlt_bool_false_iff. exact Hle. }
  rewrite E. reflexivity.
Qed.

Lemma select_sampling (temperature : Q) (top_k : option Z) (rng : nat -> Q)
      (logits : list Q) (d : nat) :
  0 < temperature ->
  select temperature top_k rng logits d
  = let p := F_softmax exp (map (fun x => x / temperature) logits) in
    match top_k with
    | Some k => sample_top_k rng k p d
    | None =>
        new_token <- np_random_choice (map Z.of_nat (np_arange (length p))) p (rng d) ;;
        Ok (new_token, S d)
    end.
Proof.
  intros Hlt. unfold generation.select.
  apply do_sample_iff in Hlt. rewrite Hlt. reflexivity.
Qed.

(** ** One iteration *)

Lemma loop_body_inv (model : Model HX) (tokenizer : ByteTokenizer)
      (temperature : Q) (top_k : option Z) (rng : nat -> Q)
      (st st' : DecodeState HX) (c : control) :
  loop_body model tokenizer temperature top_k rng st = Ok (c, st') ->
  exists v new_token,
    last_position (fst (model (tokens st) (hx st))) = Ok v /\
    select temperature top_k rng v (draws st) = Ok (new_token, draws st') /\
    hx st' = snd (model (tokens st) (hx st)) /\
    model_calls st' = (model_calls st ++ [(tokens st, hx st)])%list /\
    ((c = Break /\ new_token = eos_token_id tokenizer /\
      gen_ids st' = gen_ids st /\ tokens st' = tokens st)
     \/
     (c = Continue /\ new_token <> eos_token_id tokenizer /\
      gen_ids st' = (gen_ids st ++ [new_token])%list /\
      tokens st' = [new_token])).
Proof.
  unfold generation.loop_body.
  destruct (model (tokens st) (hx st)) as [lg h'] eqn:Em. simpl.
  intros H.
  apply bind_Ok_inv in H. destruct H as (v & Hv & H).
  apply bind_Ok_inv in H. destruct H as ([tok d] & Hsel & H).
  exists v, tok.
  destruct (Z.eqb_spec tok (eos_token_id tokenizer)) as [Heq | Hne];
    inversion H; subst c st'; simpl;
    (split; [exact Hv | split; [exact Hsel | split; [reflexivity | split; [reflexivity | ]]]]).
  - left. repeat split; assumption.
  - right. repeat split; assumption.
Qed.

Lemma loop_body_intro (model : Model HX) (tokenizer : ByteTokenizer)
      (temperature : Q) (top_k : option Z) (rng : nat -> Q)
      (st : DecodeState HX) (v : list Q) (new_token : Z) (d : nat) :
  last_position (fst (model (tokens st) (hx st))) = Ok v ->
  select temperature top_k rng v (draws st) = Ok (new_token, d) ->
  loop_body model tokenizer temperature top_k rng st
  = let hx' := snd (model (tokens st) (hx st)) in
    let calls := (model_calls st ++ [(tokens st, hx st)])%list in
    if (new_token =? eos_token_id tokenizer)%Z
    then Ok (Break, mkState (gen_ids st) hx' (tokens st) calls d)
    else Ok (Continue,
             mkState (gen_ids st ++ [new_token])%list hx' [new_token] calls d).
Proof.
  unfold generation.loop_body.
  destruct (model (tokens st) (hx st)) as [lg h']. simpl.
  intros -> Hsel. simpl. rewrite Hsel. reflexivity.
Qed.

(** A greedy iteration depends neither on the generator nor on [top_k]. *)
Lemma loop_body_greedy_ext (model1 model2 : Model HX) (tokenizer : ByteTokenizer)
      (temperature1 temperature2 : Q) (top_k1 top_k2 : option Z)
      (rng1 rng2 : nat -> Q) (st : DecodeState HX) :
  temperature1 <= 0 -> temperature2 <= 0 ->
  (forall t h, model1 t h = model2 t h) ->
  loop_body model1 tokenizer temperature1 top_k1 rng1 st
  = loop_body model2 tokenizer temperature2 top_k2 rng2 st.
Proof.
  intros Hle1 Hle2 Hm. unfold generation.loop_body. rewrite Hm.
  destruct (model2 (tokens st) (hx st)) as [lg h'].
  destruct (last_position lg) as [v | e | ]; simpl; try reflexivity.
  rewrite (select_greedy temperature1 top_k1 rng1 v (draws st) Hle1).
  rewrite (select_greedy temperature2 top_k2 rng2 v (draws st) Hle2).
  reflexivity.
Qed.

Lemma while_loop_greedy_ext (model1 model2 : Model HX) (tokenizer : ByteTokenizer)
      (temperature1 temperature2 : Q) (top_k1 top_k2 : option Z) (max_length : Z)
      (rng1 rng2 : nat -> Q) (fuel : nat) (st : DecodeState HX) :
  temperature1 <= 0 -> temperature2 <= 0 ->
  (forall t h, model1 t h = model2 t h) ->
  while_loop model1 tokenizer temperature1 top_k1 max_length rng1 fuel st
  = while_loop model2 tokenizer temperature2 top_k2 max_length rng2 fuel st.
Proof.
  intros Hle1 Hle2 Hm. revert st.
  induction fuel as [ | fuel IH]; intros st; simpl.
  - reflexivity.
  - destruct (Z.of_nat (length (gen_ids st)) <? max_length)%Z; [ | reflexivity].
    rewrite (loop_body_greedy_ext model1 model2 tokenizer temperature1 temperature2
               top_k1 top_k2 rng1 rng2 st Hle1 Hle2 Hm).
    destruct (loop_body model2 tokenizer temperature2 top_k2 rng2 st)
      as [[c st'] | e | ]; simpl; try reflexivity.
    destruct c; [reflexivity | apply IH].
Qed.

(** ** No iteration when [max_length] is not positive *)

Lemma generate_run_no_iteration (model : Model HX) (tokenizer : ByteTokenizer)
      (temperature : Q) (top_k : option Z) (max_length : Z) (rng : nat -> Q) :
  (max_length <= 0)%Z ->
  generate_run model tokenizer temperature top_k max_length rng
  = Ok (initial_state HX tokenizer).
Proof.
  intros Hle. unfold generation.generate_run.
  assert (E : (Z.of_nat (length (gen_ids (initial_state HX tokenizer)))
               <? max_length)%Z = false)
    by (apply Z.ltb_ge; simpl; lia).
  destruct (Z.to_nat max_length); simpl; simpl in E; rewrite E; reflexivity.
Qed.

(** ** The record of model calls *)

Lemma expected_calls_snoc (model : Model HX) (tokenizer : ByteTokenizer)
      (ids : list Z) (new_token : Z) :
  expected_calls HX model tokenizer (ids ++ [new_token])
  = feed HX model (expected_calls HX model tokenizer ids) new_token.
Proof.
  unfold expected_calls. rewrite fold_left_app. reflexivity.
Qed.

Lemma synced_step (model : Model HX) (tokenizer : ByteTokenizer)
      (temperature : Q) (top_k : option Z) (rng : nat -> Q)
      (st st' : DecodeState HX) :
  synced model tokenizer st ->
  loop_body model tokenizer temperature top_k rng st = Ok (Continue, st') ->
  synced model tokenizer st'.
Proof.
  unfold synced. intros Hs Hb.
  apply loop_body_inv in Hb.
  destruct Hb as (v & tok & _ & _ & Hhx & Hcalls & [(Hc & _) | (_ & _ & Hg & Ht)]);
    [discriminate | ].
  rewrite Hg, expected_calls_snoc, Hs. simpl.
  rewrite Hcalls, Ht, Hhx. reflexivity.
Qed.

Lemma while_loop_calls (model : Model HX) (tokenizer : ByteTokenizer)
      (temperature : Q) (top_k : option Z) (max_length : Z) (rng : nat -> Q)
      (fuel : nat) (st st' : DecodeState HX) :
  synced model tokenizer st ->
  while_loop model tokenizer temperature top_k max_length rng fuel st = Ok st' ->
  let e := expected_calls HX model tokenizer (gen_ids st') in
  (model_calls st' = fst e /\ (tokens st', hx st') = snd e) \/
  (model_calls st' = (fst e ++ [snd e])%list /\
   hx st' = snd (model (fst (snd e)) (snd (snd e)))).
Proof.
  revert st. induction fuel as [ | fuel IH]; intros st Hs; simpl.
  - destruct (Z.of_nat (length (gen_ids st)) <? max_length)%Z; [discriminate | ].
    intros H; inversion H; subst st'. left. rewrite Hs. split; reflexivity.
  - destruct (Z.of_nat (length (gen_ids st)) <? max_length)%Z.
    + intros H. apply bind_Ok_inv in H. destruct H as ([c st1] & Hb & H).
      destruct c.
      * inversion H; subst st1. right.
        apply loop_body_inv in Hb.
        destruct Hb as (v & tok & _ & _ & Hhx & Hcalls & [(_ & _ & Hg & _) | (Hc & _)]);
          [ | discriminate].
        rewrite Hg. unfold synced in Hs. rewrite Hs. simpl.
        split; assumption.
      * apply (IH st1); [ | exact H].
        eapply synced_step; eassumption.
    + intros H; inversion H; subst st'. left. rewrite Hs. split; reflexivity.
Qed.

Lemma loop_body_last_position (model : Model HX) (tokenizer : ByteTokenizer)
      (temperature : Q) (top_k : option Z) (rng : nat -> Q) (st : DecodeState HX) :
  loop_body model tokenizer temperature top_k rng st
  = (v <- last_position (fst (model (tokens st) (hx st))) ;;
     '(new_token, d) <- select temperature top_k rng v (draws st) ;;
     let hx' := snd (model (tokens st) (hx st)) in
     let calls := (model_calls st ++ [(tokens st, hx st)])%list in
     if (new_token =? eos_token_id tokenizer)%Z
     then Ok (Break, mkState (gen_ids st) hx' (tokens st) calls d)
     else Ok (Continue,
              mkState (gen_ids st ++ [new_token])%list hx' [new_token] calls d)).
Proof.
  unfold generation.loop_body.
  destruct (model (tokens st) (hx st)) as [lg h']. reflexivity.
Qed.

Lemma while_loop_last_position_ext (model1 model2 : Model HX)
      (tokenizer : ByteTokenizer) (temperature : Q) (top_k : option Z)
      (max_length : Z) (rng : nat -> Q) (fuel : nat) (st : DecodeState HX) :
  (forall t h, last_position (fst (model1 t h)) = last_position (fst (model2 t h))
               /\ snd (model1 t h) = snd (model2 t h)) ->
  while_loop model1 tokenizer temperature top_k max_length rng fuel st
  = while_loop model2 tokenizer temperature top_k max_length rng fuel st.
Proof.
  intros Hm. revert st.
  induction fuel as [ | fuel IH]; intros st; simpl; [reflexivity | ].
  destruct (Z.of_nat (length (gen_ids st)) <? max_length)%Z; [ | reflexivity].
  rewrite (loop_body_last_position model1), (loop_body_last_position model2).
  destruct (Hm (tokens st) (hx st)) as [-> ->].
  destruct (last_position (fst (model2 (tokens st) (hx st)))) as [v | e | ];
    simpl; try reflexivity.
  destruct (select temperature top_k rng v (draws st)) as [[tok d] | e | ];
    simpl; try reflexivity.
  destruct (tok =? eos_token_id tokenizer)%Z; simpl; [reflexivity | apply IH].
Qed.

(** C8. Two models that agree on the scores of the last position and on the
    returned state make the same run, so only the last position is used;
    an iteration that continues appends the chosen id, makes it the whole
    next input and keeps the state the model returned; and the calls of a
    finished run are the expected ones: the begin token with no state, then
    each emitted id alone with the state returned by the call before. *)
Theorem last_position_and_state_threading
        (model model' : Model HX) (tokenizer : ByteTokenizer) (temperature : Q)
        (top_k : option Z) (max_length : Z) (rng : nat -> Q) :
  ((forall t h, last_position (fst (model t h)) = last_position (fst (model' t h))
                /\ snd (model t h) = snd (model' t h)) ->
   generate_run model tokenizer temperature top_k max_length rng
   = generate_run model' tokenizer temperature top_k max_length rng) /\
  (forall st st',
      loop_body model tokenizer temperature top_k rng st = Ok (Continue, st') ->
      exists new_token,
        gen_ids st' = (gen_ids st ++ [new_token])%list /\
        tokens st' = [new_token] /\
        hx st' = snd (model (tokens st) (hx st)) /\
        model_calls st' = (model_calls st ++ [(tokens st, hx st)])%list) /\
  (forall st,
      generate_run model tokenizer temperature top_k max_length rng = Ok st ->
      let e := expected_calls HX model tokenizer (gen_ids st) in
      (model_calls st = fst e /\ (tokens st, hx st) = snd e) \/
      (model_calls st = (fst e ++ [snd e])%list /\
       hx st = snd (model (fst (snd e)) (snd (snd e))))).
Proof.
  split; [ | split].
  - intros Hm. unfold generation.generate_run.
    apply while_loop_last_position_ext. exact Hm.
  - intros st st' Hb. apply loop_body_inv in Hb.
    destruct Hb as (v & tok & _ & _ & Hhx & Hcalls & [(Hc & _) | (_ & _ & Hg & Ht)]);
      [discriminate | ].
    exists tok. repeat split; assumption.
  - intros st Hrun. unfold generation.generate_run in Hrun.
    eapply while_loop_calls; [ | exact Hrun].
    reflexivity.
Qed.

(** ** Only the loop can run out of fuel *)

Lemma bind_fuel {A B : Type} (c : outcome A) (k : A -> outcome B) :
  c <> OutOfFuel -> (forall a, k a <> OutOfFuel) -> bind c k <> OutOfFuel.
Proof.
  intros Hc Hk. destruct c as [a | e | ]; simpl;
    [apply Hk | discriminate | exfalso; apply Hc; reflexivity].
Qed.

Lemma np_take_fuel {A : Type} (a : list A) (idx : list nat) :
  np_take a idx <> OutOfFuel.
Proof.
  induction idx as [ | i r IH]; simpl; [discriminate | ].
  destruct (nth_error a i); [ | discriminate].
  apply bind_fuel; [exact IH | discriminate].
Qed.

Lemma np_random_choice_fuel (a : list Z) (p : list Q) (u : Q) :
  np_random_choice a p u <> OutOfFuel.
Proof.
  unfold np_random_choice.
  repeat match goal with
         | |- (if ?b then _ else _) <> _ => destruct b; try discriminate
         | |- match ?x with _ => _ end <> _ => destruct x; try discriminate
         end.
Qed.

Lemma select_fuel (temperature : Q) (top_k : option Z) (rng : nat -> Q)
      (logits : list Q) (d : nat) :
  select temperature top_k rng logits d <> OutOfFuel.
Proof.
  unfold generation.select.
  destruct (negb (do_sample temperature)).
  - destruct logits; simpl; discriminate.
  - destruct top_k as [k | ].
    + unfold generation.sample_top_k, np_argpartition.
      apply bind_fuel; [destruct (_ && _)%bool; discriminate | intros part].
      apply bind_fuel; [apply np_take_fuel | intros pk].
      apply bind_fuel; [apply np_take_fuel | intros ids].
      apply bind_fuel; [apply np_take_fuel | intros pk'].
      apply bind_fuel; [apply np_random_choice_fuel | discriminate].
    + apply bind_fuel; [apply np_random_choice_fuel | discriminate].
Qed.

Lemma loop_body_fuel (model : Model HX) (tokenizer : ByteTokenizer)
      (temperature : Q) (top_k : option Z) (rng : nat -> Q) (st : DecodeState HX) :
  loop_body model tokenizer temperature top_k rng st <> OutOfFuel.
Proof.
  rewrite loop_body_last_position.
  apply bind_fuel.
  - unfold last_position. destruct (rev _); discriminate.
  - intros v. apply bind_fuel; [apply select_fuel | intros [tok d]].
    cbv zeta. destruct (tok =? eos_token_id tokenizer)%Z; discriminate.
Qed.

(** ** The length of the output *)

Lemma reachable_no_eos (model : Model HX) (tokenizer : ByteTokenizer)
      (temperature : Q) (top_k : option Z) (max_length : Z) (rng : nat -> Q)
      (st : DecodeState HX) :
  reachable model tokenizer temperature top_k max_length rng st ->
  ~ In (eos_token_id tokenizer) (gen_ids st).
Proof.
  induction 1 as [ | st st' Hr IH Hlt Hb].
  - simpl. tauto.
  - apply loop_body_inv in Hb.
    destruct Hb as (v & tok & _ & _ & _ & _ & [(Hc & _) | (_ & Hne & Hg & _)]);
      [discriminate | ].
    rewrite Hg. intros Hin. apply in_app_or in Hin.
    destruct Hin as [Hin | [Heq | []]]; [exact (IH Hin) | congruence].
Qed.

Lemma reachable_length (model : Model HX) (tokenizer : ByteTokenizer)
      (temperature : Q) (top_k : option Z) (max_length : Z) (rng : nat -> Q)
      (st : DecodeState HX) :
  reachable model tokenizer temperature top_k max_length rng st ->
  (Z.of_nat (length (gen_ids st)) <= Z.max 0 max_length)%Z.
Proof.
  induction 1 as [ | st st' Hr IH Hlt Hb].
  - simpl. lia.
  - apply loop_body_inv in Hb.
    destruct Hb as (v & tok & _ & _ & _ & _ & [(Hc & _) | (_ & _ & Hg & _)]);
      [discriminate | ].
    rewrite Hg, length_app. simpl. lia.
Qed.

(** With fuel for the iterations that remain, the loop ends: at a reachable
    state that fails the guard, or by a [break] out of a reachable state. *)
Lemma while_loop_exit (model : Model HX) (tokenizer : ByteTokenizer)
      (temperature : Q) (top_k : option Z) (max_length : Z) (rng : nat -> Q)
      (fuel : nat) (st : DecodeState HX) :
  reachable model tokenizer temperature top_k max_length rng st ->
  (max_length - Z.of_nat (length (gen_ids st)) <= Z.of_nat fuel)%Z ->
  while_loop model tokenizer temperature top_k max_length rng fuel st <> OutOfFuel /\
  (forall e,
      while_loop model tokenizer temperature top_k max_length rng fuel st = Raise e ->
      exists st0,
        reachable model tokenizer temperature top_k max_length rng st0 /\
        (Z.of_nat (length (gen_ids st0)) < max_length)%Z /\
        loop_body model tokenizer temperature top_k rng st0 = Raise e) /\
  (forall st',
      while_loop model tokenizer temperature top_k max_length rng fuel st = Ok st' ->
      (reachable model tokenizer temperature top_k max_length rng st' /\
       (max_length <= Z.of_nat (length (gen_ids st')))%Z)
      \/
      (exists st0,
          reachable model tokenizer temperature top_k max_length rng st0 /\
          (Z.of_nat (length (gen_ids st0)) < max_length)%Z /\
          loop_body model tokenizer temperature top_k rng st0 = Ok (Break, st'))).
Proof.
  revert st. induction fuel as [ | fuel IH]; intros st Hr Hfuel; simpl.
  - destruct (Z.ltb_spec (Z.of_nat (length (gen_ids st))) max_length) as [Hlt | Hge];
      [lia | ].
    split; [discriminate | split; [discriminate | ]].
    intros st' H; inversion H; subst st'. left. split; assumption.
  - destruct (Z.ltb_spec (Z.of_nat (length (gen_ids st))) max_length) as [Hlt | Hge].
    + destruct (loop_body model tokenizer temperature top_k rng st)
        as [[c st1] | e1 | ] eqn:Hb; simpl.
      * destruct c.
        -- split; [discriminate | split; [discriminate | ]].
           intros st' H; inversion H; subst st'. right.
           exists st. repeat split; assumption.
        -- assert (Hr1 : reachable model tokenizer temperature top_k max_length rng st1)
             by (eapply reach_step; eassumption).
           apply IH; [exact Hr1 | ].
           apply loop_body_inv in Hb.
           destruct Hb as (v & tok & _ & _ & _ & _ & [(Hc & _) | (_ & _ & Hg & _)]);
             [discriminate | ].
           rewrite Hg, length_app. simpl. lia.
      * split; [discriminate | split; [ | discriminate]].
        intros e H; inversion H; subst e1.
        exists st. repeat split; assumption.
      * exfalso. exact (loop_body_fuel _ _ _ _ _ _ Hb).
    + split; [discriminate | split; [discriminate | ]].
      intros st' H; inversion H; subst st'. left. split; assumption.
Qed.

(** ** Greedy decoding *)

(** C1. When the temperature is zero, an iteration whose model call gave a
    non-empty score vector [v] for the last position selects the id of the
    first maximal entry of [v] (the maximum, the lowest id among ties), and
    there is one such id only; the number of uniform draws consumed does not
    change, and the iteration is the same whatever the generator would have
    produced. *)
Theorem greedy_step_selects_first_max
        (model : Model HX) (tokenizer : ByteTokenizer) (temperature : Q)
        (top_k : option Z) (rng : nat -> Q) (st : DecodeState HX) (v : list Q) :
  temperature == 0 ->
  last_position (fst (model (tokens st) (hx st))) = Ok v ->
  v <> [] ->
  exists i,
    first_max v i /\
    (forall j, first_max v j -> j = i) /\
    select temperature top_k rng v (draws st) = Ok (Z.of_nat i, draws st) /\
    (exists c st',
        loop_body model tokenizer temperature top_k rng st = Ok (c, st') /\
        draws st' = draws st /\
        ((c = Break /\ Z.of_nat i = eos_token_id tokenizer /\
          gen_ids st' = gen_ids st)
         \/
         (c = Continue /\ Z.of_nat i <> eos_token_id tokenizer /\
          gen_ids st' = (gen_ids st ++ [Z.of_nat i])%list))) /\
    (forall rng',
        loop_body model tokenizer temperature top_k rng' st
        = loop_body model tokenizer temperature top_k rng st).
Proof.
  intros Ht Hv Hne.
  assert (Hle : temperature <= 0) by (rewrite Ht; apply Qle_refl).
  destruct (torch_argmax_first_max v Hne) as (i & Hi & Hfm).
  assert (Hsel : select temperature top_k rng v (draws st) = Ok (Z.of_nat i, draws st)).
  { rewrite select_greedy by exact Hle. rewrite Hi. reflexivity. }
  exists i. split; [exact Hfm | split; [ | split; [exact Hsel | split]]].
  - intros j Hj. apply (first_max_unique v j i Hj Hfm).
  - rewrite (loop_body_intro model tokenizer temperature top_k rng st v _ _ Hv Hsel).
    cbv zeta.
    destruct (Z.eqb_spec (Z.of_nat i) (eos_token_id tokenizer)) as [Heq | Hneq].
    + eexists _, _. split; [reflexivity | ]. simpl. split; [reflexivity | ].
      left. repeat split; assumption.
    + eexists _, _. split; [reflexivity | ]. simpl. split; [reflexivity | ].
      right. repeat split; assumption.
  - intros rng'.
    apply loop_body_greedy_ext; [exact Hle | exact Hle | reflexivity].
Qed.

(** C6. With temperature zero, two runs with models that answer alike, the
    same tokenizer and the same [max_length] end in the same state and
    return the same text, whatever their generators and [top_k]. *)
Theorem greedy_generate_deterministic
        (model1 model2 : Model HX) (tokenizer : ByteTokenizer) (temperature : Q)
        (top_k1 top_k2 : option Z) (max_length : Z) (rng1 rng2 : nat -> Q) :
  temperature == 0 ->
  (forall t h, model1 t h = model2 t h) ->
  generate_run model1 tokenizer temperature top_k1 max_length rng1
  = generate_run model2 tokenizer temperature top_k2 max_length rng2 /\
  generate model1 tokenizer temperature top_k1 max_length rng1
  = generate model2 tokenizer temperature top_k2 max_length rng2.
Proof.
  intros Ht Hm.
  assert (Hle : temperature <= 0) by (rewrite Ht; apply Qle_refl).
  assert (Hrun : generate_run model1 tokenizer temperature top_k1 max_length rng1
                 = generate_run model2 tokenizer temperature top_k2 max_length rng2).
  { unfold generation.generate_run. apply while_loop_greedy_ext; assumption. }
  split; [exact Hrun | ].
  unfold generation.generate. rewrite Hrun. reflexivity.
Qed.

(** ** The boundary of [max_length] *)

(** C7. With [max_length = 0] the loop is not entered: the run ends in the
    initial state, whose record of model calls is empty, and [generate]
    returns the decoding of no token, which is the empty string for a
    tokenizer that decodes the empty sequence to it. *)
Theorem generate_zero_length
        (model : Model HX) (tokenizer : ByteTokenizer) (temperature : Q)
        (top_k : option Z) (rng : nat -> Q) :
  decode tokenizer [] = String.EmptyString ->
  generate model tokenizer temperature top_k 0 rng = Ok String.EmptyString /\
  exists st,
    generate_run model tokenizer temperature top_k 0 rng = Ok st /\
    gen_ids st = [] /\ model_calls st = [].
Proof.
  intros Hdec.
  pose proof (generate_run_no_iteration model tokenizer temperature top_k 0 rng
                (Z.le_refl 0)) as Hrun.
  split.
  - unfold generation.generate. rewrite Hrun. simpl. rewrite Hdec. reflexivity.
  - exists (initial_state HX tokenizer). split; [exact Hrun | split; reflexivity].
Qed.

(** C10. For every [max_length] that is zero or negative, [generate] raises
    nothing, calls the model not once, and returns the decoding of the empty
    sequence of tokens. *)
Theorem generate_nonpositive_length
        (model : Model HX) (tokenizer : ByteTokenizer) (temperature : Q)
        (top_k : option Z) (max_length : Z) (rng : nat -> Q) :
  (max_length <= 0)%Z ->
  generate model tokenizer temperature top_k max_length rng
  = Ok (decode tokenizer []) /\
  exists st,
    generate_run model tokenizer temperature top_k max_length rng = Ok st /\
    gen_ids st = [] /\ model_calls st = [].
Proof.
  intros Hle.
  pose proof (generate_run_no_iteration model tokenizer temperature top_k
                max_length rng Hle) as Hrun.
  split.
  - unfold generation.generate. rewrite Hrun. reflexivity.
  - exists (initial_state HX tokenizer). split; [exact Hrun | split; reflexivity].
Qed.

(** C3, amended. For every call with [max_length >= 0]: every state at the
    head of an iteration holds at most [max_length] ids, none of them the
    end id; the loop ends; and a run that returns holds at most [max_length]
    ids, none of them the end id, and holds exactly [max_length] of them
    unless its last iteration selected the end id. *)
Theorem emitted_length_bounded
        (model : Model HX) (tokenizer : ByteTokenizer) (temperature : Q)
        (top_k : option Z) (max_length : Z) (rng : nat -> Q) :
  (0 <= max_length)%Z ->
  (forall st,
      reachable model tokenizer temperature top_k max_length rng st ->
      (Z.of_nat (length (gen_ids st)) <= max_length)%Z /\
      ~ In (eos_token_id tokenizer) (gen_ids st)) /\
  generate_run model tokenizer temperature top_k max_length rng <> OutOfFuel /\
  (forall st,
      generate_run model tokenizer temperature top_k max_length rng = Ok st ->
      (Z.of_nat (length (gen_ids st)) <= max_length)%Z /\
      ~ In (eos_token_id tokenizer) (gen_ids st) /\
      ((Z.of_nat (length (gen_ids st)) = max_length /\
        reachable model tokenizer temperature top_k max_length rng st)
       \/
       ((Z.of_nat (length (gen_ids st)) < max_length)%Z /\
        exists st0 v d,
          reachable model tokenizer temperature top_k max_length rng st0 /\
          gen_ids st0 = gen_ids st /\
          last_position (fst (model (tokens st0) (hx st0))) = Ok v /\
          select temperature top_k rng v (draws st0)
          = Ok (eos_token_id tokenizer, d)))).
Proof.
  intros Hpos.
  assert (Hlen : forall st,
             reachable model tokenizer temperature top_k max_length rng st ->
             (Z.of_nat (length (gen_ids st)) <= max_length)%Z).
  { intros st Hr. pose proof (reachable_length _ _ _ _ _ _ _ Hr). lia. }
  destruct (while_loop_exit model tokenizer temperature top_k max_length rng
              (Z.to_nat max_length) (initial_state HX tokenizer))
    as (Hfuel & _ & Hok).
  { apply reach_init. }
  { simpl. lia. }
  split; [ | split].
  - intros st Hr. split; [apply Hlen; exact Hr | ].
    eapply reachable_no_eos; exact Hr.
  - exact Hfuel.
  - intros st Hrun. destruct (Hok st Hrun) as [(Hr & Hge) | (st0 & Hr & Hlt & Hb)].
    + pose proof (Hlen st Hr) as Hle.
      split; [exact Hle | split; [eapply reachable_no_eos; exact Hr | ]].
      left. split; [lia | exact Hr].
    + apply loop_body_inv in Hb.
      destruct Hb as (v & tok & Hv & Hsel & _ & _ & [(_ & Htok & Hg & _) | (Hc & _)]);
        [ | discriminate].
      rewrite Hg. split; [lia | split; [eapply reachable_no_eos; exact Hr | ]].
      right. split; [exact Hlt | ].
      exists st0, v, (draws st). subst tok.
      repeat split; assumption.
Qed.

(** ** No validation of the configuration *)

Lemma F_softmax_length (v : list Q) : length (F_softmax exp v) = length v.
Proof.
  destruct v as [ | x r]; [reflexivity | ].
  unfold F_softmax. rewrite !length_map. reflexivity.
Qed.

Lemma np_argpartition_out_of_bounds (p : list Q) (k : Z) :
  (Z.of_nat (length p) < k \/ k <= - Z.of_nat (length p))%Z ->
  np_argpartition introselect p (- k) = Raise ValueError.
Proof.
  intros Hk. unfold np_argpartition.
  destruct (Z.leb_spec (- Z.of_nat (length p)) (- k));
    destruct (Z.ltb_spec (- k) (Z.of_nat (length p))); simpl;
    try reflexivity; lia.
Qed.

(** ** Sampling *)

Lemma Qscale_div (x t : Q) : x * (1 / t) = x / t.
Proof.
  unfold Qdiv. f_equal.
  destruct (/ t) as [a b]. unfold Qmult. simpl.
  destruct a; reflexivity.
Qed.

Lemma F_softmax_is_softmax (v : list Q) :
  v <> [] -> is_softmax exp v (F_softmax exp v).
Proof.
  intros Hne. split; [apply F_softmax_length | ].
  destruct v as [ | x r]; [congruence | ].
  destruct (fold_Qmaxb_max r x) as ((i & Hi & Hnth) & Hmax).
  exists (fold_left Qmaxb r x). split; [ | split].
  - exists i. split; [exact Hi | rewrite Hnth; reflexivity].
  - exact Hmax.
  - intros j Hj. unfold F_softmax.
    set (m := fold_left Qmaxb r x).
    set (e := map (fun y => exp (y - m)) (x :: r)).
    rewrite (nth_indep _ 0 (0 / Qsum e)) by (unfold e; rewrite !length_map; exact Hj).
    rewrite (map_nth (fun y => y / Qsum e) e 0 j).
    unfold e at 1.
    rewrite (nth_indep _ 0 (exp (0 - m))) by (rewrite length_map; exact Hj).
    rewrite (map_nth (fun y => exp (y - m)) (x :: r) 0 j).
    reflexivity.
Qed.

(** ** Runs from a reachable state *)

Lemma generate_run_from_reachable (model : Model HX) (tokenizer : ByteTokenizer)
      (temperature : Q) (top_k : option Z) (max_length : Z) (rng : nat -> Q)
      (st : DecodeState HX) :
  reachable model tokenizer temperature top_k max_length rng st ->
  generate_run model tokenizer temperature top_k max_length rng
  = while_loop model tokenizer temperature top_k max_length rng
               (Z.to_nat max_length - length (gen_ids st)) st.
Proof.
  induction 1 as [ | st st' Hr IH Hlt Hb].
  - unfold generation.generate_run. simpl. rewrite Nat.sub_0_r. reflexivity.
  - rewrite IH.
    pose proof Hb as Hb'. apply loop_body_inv in Hb'.
    destruct Hb' as (v & tok & _ & _ & _ & _ & [(Hc & _) | (_ & _ & Hg & _)]);
      [discriminate | ].
    rewrite Hg, length_app. simpl length.
    replace (Z.to_nat max_length - length (gen_ids st))%nat
      with (S (Z.to_nat max_length - (length (gen_ids st) + 1)))%nat by lia.
    simpl.
    destruct (Z.ltb_spec (Z.of_nat (length (gen_ids st))) max_length) as [_ | Hge];
      [ | lia].
    rewrite Hb. reflexivity.
Qed.

Lemma run_breaks_at (model : Model HX) (tokenizer : ByteTokenizer)
      (temperature : Q) (top_k : option Z) (max_length : Z) (rng : nat -> Q)
      (st0 st' : DecodeState HX) :
  reachable model tokenizer temperature top_k max_length rng st0 ->
  (Z.of_nat (length (gen_ids st0)) < max_length)%Z ->
  loop_body model tokenizer temperature top_k rng st0 = Ok (Break, st') ->
  generate_run model tokenizer temperature top_k max_length rng = Ok st'.
Proof.
  intros Hr Hlt Hb.
  rewrite (generate_run_from_reachable _ _ _ _ _ _ _ Hr).
  destruct (Z.to_nat max_length - length (gen_ids st0))%nat as [ | f] eqn:Ef; [lia | ].
  simpl.
  destruct (Z.ltb_spec (Z.of_nat (length (gen_ids st0))) max_length) as [_ | Hge];
    [ | lia].
  rewrite Hb. reflexivity.
Qed.

Lemma run_raises_at (model : Model HX) (tokenizer : ByteTokenizer)
      (temperature : Q) (top_k : option Z) (max_length : Z) (rng : nat -> Q)
      (st0 : DecodeState HX) (e : exn) :
  reachable model tokenizer temperature top_k max_length rng st0 ->
  (Z.of_nat (length (gen_ids st0)) < max_length)%Z ->
  loop_body model tokenizer temperature top_k rng st0 = Raise e ->
  generate_run model tokenizer temperature top_k max_length rng = Raise e.
Proof.
  intros Hr Hlt Hb.
  rewrite (generate_run_from_reachable _ _ _ _ _ _ _ Hr).
  destruct (Z.to_nat max_length - length (gen_ids st0))%nat as [ | f] eqn:Ef; [lia | ].
  simpl.
  destruct (Z.ltb_spec (Z.of_nat (length (gen_ids st0))) max_length) as [_ | Hge];
    [ | lia].
  rewrite Hb. reflexivity.
Qed.

Lemma reachable_mono (model : Model HX) (tokenizer : ByteTokenizer)
      (temperature : Q) (top_k : option Z) (max_length max_length' : Z)
      (rng : nat -> Q) (st : DecodeState HX) :
  (max_length <= max_length')%Z ->
  reachable model tokenizer temperature top_k max_length rng st ->
  reachable model tokenizer temperature top_k max_length' rng st.
Proof.
  intros Hle. induction 1 as [ | st st' Hr IH Hlt Hb].
  - apply reach_init.
  - eapply reach_step; [exact IH | lia | exact Hb].
Qed.

Lemma while_loop_extends (model : Model HX) (tokenizer : ByteTokenizer)
      (temperature : Q) (top_k : option Z) (max_length : Z) (rng : nat -> Q)
      (fuel : nat) (st st' : DecodeState HX) :
  while_loop model tokenizer temperature top_k max_length rng fuel st = Ok st' ->
  exists suffix, gen_ids st' = (gen_ids st ++ suffix)%list.
Proof.
  revert st. induction fuel as [ | fuel IH]; intros st; simpl.
  - destruct (Z.of_nat (length (gen_ids st)) <? max_length)%Z; [discriminate | ].
    intros H; inversion H; subst st'. exists []. rewrite app_nil_r. reflexivity.
  - destruct (Z.of_nat (length (gen_ids st)) <? max_length)%Z.
    + intros H. apply bind_Ok_inv in H. destruct H as ([c st1] & Hb & H).
      apply loop_body_inv in Hb.
      destruct Hb as (v & tok & _ & _ & _ & _ & [(Hc & _ & Hg & _) | (Hc & _ & Hg & _)]);
        subst c.
      * inversion H; subst st1. exists []. rewrite app_nil_r. exact Hg.
      * destruct (IH st1 H) as (suffix & Hs).
        exists (tok :: suffix). rewrite Hs, Hg, <- app_assoc. reflexivity.
    + intros H; inversion H; subst st'. exists []. rewrite app_nil_r. reflexivity.
Qed.

(** ** What one selection returns *)

Lemma np_take_Ok_inv {A : Type} (a : list A) (idx : list nat) (l : list A) :
  np_take a idx = Ok l -> Forall (fun i => (i < length a)%nat) idx.
Proof.
  revert l. induction idx as [ | i r IH]; intros l; simpl.
  - intros _. constructor.
  - destruct (nth_error a i) as [x | ] eqn:E; [ | discriminate].
    intros H. apply bind_Ok_inv in H. destruct H as (xs & Hxs & _).
    constructor.
    + apply nth_error_Some. congruence.
    + eapply IH. exact Hxs.
Qed.

Lemma sample_top_k_inv (rng : nat -> Q) (k : Z) (p : list Q) (d d' : nat) (tok : Z) :
  sample_top_k rng k p d = Ok (tok, d') ->
  d' = S d /\ exists i, tok = Z.of_nat i /\ (i < length p)%nat.
Proof.
  unfold generation.sample_top_k. intros H.
  apply bind_Ok_inv in H. destruct H as (part & _ & H).
  apply bind_Ok_inv in H. destruct H as (pk & _ & H).
  apply bind_Ok_inv in H. destruct H as (ids & _ & H).
  apply bind_Ok_inv in H. destruct H as (pk' & Hpk' & H).
  apply bind_Ok_inv in H. destruct H as (t & Hchoice & H).
  inversion H; subst t d'. split; [reflexivity | ].
  apply np_random_choice_In in Hchoice.
  apply in_map_iff in Hchoice. destruct Hchoice as (i & <- & Hi).
  exists i. split; [reflexivity | ].
  apply np_take_Ok_inv in Hpk'. rewrite Forall_forall in Hpk'. apply Hpk'. exact Hi.
Qed.

Lemma select_inv (temperature : Q) (top_k : option Z) (rng : nat -> Q)
      (v : list Q) (d d' : nat) (tok : Z) :
  select temperature top_k rng v d = Ok (tok, d') ->
  (0 <= tok < Z.of_nat (length v))%Z /\
  d' = (if do_sample temperature then S d else d).
Proof.
  unfold generation.select.
  destruct (do_sample temperature); simpl negb; cbv iota.
  - assert (Hlen : length (F_softmax exp (map (fun x => x / temperature) v)) = length v)
      by (rewrite F_softmax_length, length_map; reflexivity).
    destruct top_k as [k | ].
    + intros H. apply sample_top_k_inv in H.
      destruct H as (-> & i & -> & Hi). rewrite Hlen in Hi. split; [lia | reflexivity].
    + intros H. apply bind_Ok_inv in H. destruct H as (t & Hchoice & H).
      inversion H; subst t d'. split; [ | reflexivity].
      apply np_random_choice_In in Hchoice.
      apply in_map_iff in Hchoice. destruct Hchoice as (i & <- & Hi).
      unfold np_arange in Hi. apply in_seq in Hi. rewrite Hlen in Hi. lia.
  - intros H. apply bind_Ok_inv in H. destruct H as (i & Hi & H).
    inversion H; subst tok d'. split; [ | reflexivity].
    destruct v as [ | x r]; [discriminate | ].
    destruct (torch_argmax_first_max (x :: r)) as (i' & Hi' & (Hlt & _)); [discriminate | ].
    assert (i' = i) by congruence. subst i'. lia.
Qed.

(** The invariant of the loop on ids, calls and draws. *)
Lemma reachable_counts (model : Model HX) (tokenizer : ByteTokenizer)
      (temperature : Q) (top_k : option Z) (max_length : Z) (rng : nat -> Q)
      (st : DecodeState HX) :
  reachable model tokenizer temperature top_k max_length rng st ->
  length (model_calls st) = length (gen_ids st) /\
  draws st = (if do_sample temperature then length (model_calls st) else O).
Proof.
  induction 1 as [ | st st' Hr IH Hlt Hb].
  - simpl. destruct (do_sample temperature); split; reflexivity.
  - destruct IH as (Hcalls & Hdraws).
    apply loop_body_inv in Hb.
    destruct Hb as (v & tok & _ & Hsel & _ & Hc' & [(Hc & _) | (_ & _ & Hg & _)]);
      [discriminate | ].
    apply select_inv in Hsel. destruct Hsel as (_ & Hd).
    rewrite Hc', Hg, !length_app. simpl. split; [lia | ].
    rewrite Hd, Hdraws. destruct (do_sample temperature); lia.
Qed.

(** For a model whose score vectors all have [V] entries, the ids emitted
    so far are ids of the vocabulary. *)
Lemma reachable_ids_in_range (model : Model HX) (tokenizer : ByteTokenizer)
      (temperature : Q) (top_k : option Z) (max_length : Z) (rng : nat -> Q)
      (V : nat) (st : DecodeState HX) :
  (forall t h v, last_position (fst (model t h)) = Ok v -> length v = V) ->
  reachable model tokenizer temperature top_k max_length rng st ->
  Forall (fun tok => (0 <= tok < Z.of_nat V)%Z) (gen_ids st).
Proof.
  intros HV. induction 1 as [ | st st' Hr IH Hlt Hb].
  - constructor.
  - apply loop_body_inv in Hb.
    destruct Hb as (v & tok & Hv & Hsel & _ & _ & [(Hc & _) | (_ & _ & Hg & _)]);
      [discriminate | ].
    apply select_inv in Hsel. destruct Hsel as (Hrange & _).
    rewrite (HV _ _ _ Hv) in Hrange.
    rewrite Hg. apply Forall_app. split; [exact IH | ].
    constructor; [exact Hrange | constructor].
Qed.

(** The state a run returns: a reachable state that fails the guard, or the
    state a [break] leaves. *)
Lemma generate_run_Ok_inv (model : Model HX) (tokenizer : ByteTokenizer)
      (temperature : Q) (top_k : option Z) (max_length : Z) (rng : nat -> Q)
      (st : DecodeState HX) :
  generate_run model tokenizer temperature top_k max_length rng = Ok st ->
  (reachable model tokenizer temperature top_k max_length rng st /\
   (max_length <= Z.of_nat (length (gen_ids st)))%Z)
  \/
  (exists st0,
      reachable model tokenizer temperature top_k max_length rng st0 /\
      (Z.of_nat (length (gen_ids st0)) < max_length)%Z /\
      loop_body model tokenizer temperature top_k rng st0 = Ok (Break, st)).
Proof.
  intros Hrun.
  destruct (while_loop_exit model tokenizer temperature top_k max_length rng
              (Z.to_nat max_length) (initial_state HX tokenizer))
    as (_ & _ & Hok).
  - apply reach_init.
  - simpl. lia.
  - apply Hok. exact Hrun.
Qed.

(** ** Further properties of [generate] *)

(** X1. For a model whose last-position score vectors all have [V]
    entries, every id a returning run has emitted is an id of the
    vocabulary, [0 <= id < V], whatever the temperature and [top_k]. *)
Theorem emitted_ids_are_vocabulary_ids
        (model : Model HX) (tokenizer : ByteTokenizer) (temperature : Q)
        (top_k : option Z) (max_length : Z) (rng : nat -> Q) (V : nat)
        (st : DecodeState HX) :
  (forall t h v, last_position (fst (model t h)) = Ok v -> length v = V) ->
  generate_run model tokenizer temperature top_k max_length rng = Ok st ->
  Forall (fun tok => (0 <= tok < Z.of_nat V)%Z) (gen_ids st).
Proof.
  intros HV Hrun.
  destruct (generate_run_Ok_inv _ _ _ _ _ _ _ Hrun) as [(Hr & _) | (st0 & Hr & _ & Hb)].
  - eapply reachable_ids_in_range; eassumption.
  - apply loop_body_inv in Hb.
    destruct Hb as (v & tok & _ & _ & _ & _ & [(_ & _ & Hg & _) | (Hc & _)]);
      [ | discriminate].
    rewrite Hg. eapply reachable_ids_in_range; eassumption.
Qed.

(** X2. A returning run has made as many forward calls of the model as it
    emitted ids, or one more (the call whose token was the end id), and
    never more than [max_length] of them. *)
Theorem forward_calls_bounded
        (model : Model HX) (tokenizer : ByteTokenizer) (temperature : Q)
        (top_k : option Z) (max_length : Z) (rng : nat -> Q)
        (st : DecodeState HX) :
  generate_run model tokenizer temperature top_k max_length rng = Ok st ->
  (length (model_calls st) = length (gen_ids st) \/
   (length (model_calls st) = S (length (gen_ids st)) /\
    (Z.of_nat (length (gen_ids st)) < max_length)%Z)) /\
  (Z.of_nat (length (model_calls st)) <= Z.max 0 max_length)%Z.
Proof.
  intros Hrun.
  destruct (generate_run_Ok_inv _ _ _ _ _ _ _ Hrun) as [(Hr & _) | (st0 & Hr & Hlt & Hb)].
  - destruct (reachable_counts _ _ _ _ _ _ _ Hr) as (Hcalls & _).
    pose proof (reachable_length _ _ _ _ _ _ _ Hr) as Hlen.
    split; [left; exact Hcalls | lia].
  - destruct (reachable_counts _ _ _ _ _ _ _ Hr) as (Hcalls & _).
    apply loop_body_inv in Hb.
    destruct Hb as (v & tok & _ & _ & _ & Hc' & [(_ & _ & Hg & _) | (Hc & _)]);
      [ | discriminate].
    rewrite Hc', Hg, length_app. simpl. split; [right; split; lia | lia].
Qed.

(** X3. A returning run has consumed one uniform draw for each forward call
    of the model when the temperature is positive, and none otherwise. *)
Theorem draws_match_forward_calls
        (model : Model HX) (tokenizer : ByteTokenizer) (temperature : Q)
        (top_k : option Z) (max_length : Z) (rng : nat -> Q)
        (st : DecodeState HX) :
  generate_run model tokenizer temperature top_k max_length rng = Ok st ->
  (0 < temperature -> draws st = length (model_calls st)) /\
  (temperature <= 0 -> draws st = O).
Proof.
  intros Hrun.
  assert (H : draws st = if do_sample temperature then length (model_calls st) else O).
  { destruct (generate_run_Ok_inv _ _ _ _ _ _ _ Hrun)
      as [(Hr & _) | (st0 & Hr & Hlt & Hb)].
    - apply (reachable_counts _ _ _ _ _ _ _ Hr).
    - destruct (reachable_counts _ _ _ _ _ _ _ Hr) as (_ & Hdraws).
      apply loop_body_inv in Hb.
      destruct Hb as (v & tok & _ & Hsel & _ & Hc' & _).
      apply select_inv in Hsel. destruct Hsel as (_ & Hd).
      rewrite Hd, Hdraws, Hc', length_app. simpl.
      destruct (do_sample temperature); lia. }
  split.
  - intros Ht. apply do_sample_iff in Ht. rewrite Ht in H. exact H.
  - intros Ht. apply Qlt_bool_false_iff in Ht. fold (do_sample temperature) in Ht.
    rewrite Ht in H. exact H.
Qed.

(** X4. Greedy early stop: when the temperature is not positive,
    [max_length] is positive and the first maximal score the model gives
    for the begin token is that of the end id, [generate] returns the
    decoding of no token after exactly one forward call. *)
Theorem early_stop_single_call
        (model : Model HX) (tokenizer : ByteTokenizer) (temperature : Q)
        (top_k : option Z) (max_length : Z) (rng : nat -> Q)
        (v : list Q) (i : nat) :
  temperature <= 0 ->
  (0 < max_length)%Z ->
  last_position (fst (model [bos_token_id tokenizer] None)) = Ok v ->
  first_max v i ->
  Z.of_nat i = eos_token_id tokenizer ->
  generate model tokenizer temperature top_k max_length rng
  = Ok (decode tokenizer []) /\
  exists st,
    generate_run model tokenizer temperature top_k max_length rng = Ok st /\
    gen_ids st = [] /\
    model_calls st = [([bos_token_id tokenizer], None)].
Proof.
  intros Ht Hpos Hv Hfm Heos.
  assert (Hne : v <> []).
  { destruct Hfm as (Hlt & _). intros ->. simpl in Hlt. lia. }
  destruct (torch_argmax_first_max v Hne) as (i' & Hi' & Hfm').
  assert (i' = i) by (eapply first_max_unique; eassumption). subst i'.
  assert (Hsel : select temperature top_k rng v O = Ok (Z.of_nat i, O)).
  { rewrite select_greedy by exact Ht. rewrite Hi'. reflexivity. }
  pose proof (loop_body_intro model tokenizer temperature top_k rng
                (initial_state HX tokenizer) v _ _ Hv Hsel) as Hb.
  cbv zeta in Hb. rewrite Heos, Z.eqb_refl in Hb.
  assert (Hrun := run_breaks_at model tokenizer temperature top_k max_length rng
                    (initial_state HX tokenizer) _
                    (reach_init _ _ _ _ _ _ _ _ _ _) Hpos Hb).
  split.
  - unfold generation.generate. rewrite Hrun. reflexivity.
  - eexists. split; [exact Hrun | split; reflexivity].
Qed.

(** X5. Whenever the iteration of a reachable state that passes the guard
    selects the end id, [generate] returns the decoding of the ids emitted
    up to that state: the end id stops the run at once and is not
    decoded. *)
Theorem end_token_returns_prefix
        (model : Model HX) (tokenizer : ByteTokenizer) (temperature : Q)
        (top_k : option Z) (max_length : Z) (rng : nat -> Q)
        (st0 : DecodeState HX) (v : list Q) (d : nat) :
  reachable model tokenizer temperature top_k max_length rng st0 ->
  (Z.of_nat (length (gen_ids st0)) < max_length)%Z ->
  last_position (fst (model (tokens st0) (hx st0))) = Ok v ->
  select temperature top_k rng v (draws st0) = Ok (eos_token_id tokenizer, d) ->
  generate model tokenizer temperature top_k max_length rng
  = Ok (decode tokenizer (gen_ids st0)).
Proof.
  intros Hr Hlt Hv Hsel.
  pose proof (loop_body_intro model tokenizer temperature top_k rng st0 v _ _ Hv Hsel)
    as Hb.
  cbv zeta in Hb. rewrite Z.eqb_refl in Hb.
  unfold generation.generate.
  rewrite (run_breaks_at _ _ _ _ _ _ _ _ Hr Hlt Hb). reflexivity.
Qed.

(** X6. An exception raised by the iteration of a reachable state that
    passes the guard is the outcome of [generate]: nothing is caught, and
    no text of the ids emitted so far is returned. *)
Theorem iteration_error_aborts_run
        (model : Model HX) (tokenizer : ByteTokenizer) (temperature : Q)
        (top_k : option Z) (max_length : Z) (rng : nat -> Q)
        (st0 : DecodeState HX) (e : exn) :
  reachable model tokenizer temperature top_k max_length rng st0 ->
  (Z.of_nat (length (gen_ids st0)) < max_length)%Z ->
  loop_body model tokenizer temperature top_k rng st0 = Raise e ->
  generate model tokenizer temperature top_k max_length rng = Raise e.
Proof.
  intros Hr Hlt Hb. unfold generation.generate.
  rewrite (run_raises_at _ _ _ _ _ _ _ _ Hr Hlt Hb). reflexivity.
Qed.

(** X7. Raising [max_length] only extends the output: with everything else
    the same, a run that raised raises the same exception, a run that
    stopped at the end id returns the same state, and the ids of a run up
    to the smaller bound are a prefix of the ids of a returning run up to
    the larger one. *)
Theorem longer_max_length_extends
        (model : Model HX) (tokenizer : ByteTokenizer) (temperature : Q)
        (top_k : option Z) (max_length max_length' : Z) (rng : nat -> Q) :
  (max_length <= max_length')%Z ->
  (forall e,
      generate_run model tokenizer temperature top_k max_length rng = Raise e ->
      generate_run model tokenizer temperature top_k max_length' rng = Raise e) /\
  (forall st,
      generate_run model tokenizer temperature top_k max_length rng = Ok st ->
      ((Z.of_nat (length (gen_ids st)) < max_length)%Z ->
       generate_run model tokenizer temperature top_k max_length' rng = Ok st) /\
      (forall st',
          generate_run model tokenizer temperature top_k max_length' rng = Ok st' ->
          exists suffix, gen_ids st' = (gen_ids st ++ suffix)%list)).
Proof.
  intros Hle. split.
  - intros e Hrun.
    destruct (while_loop_exit model tokenizer temperature top_k max_length rng
                (Z.to_nat max_length) (initial_state HX tokenizer))
      as (_ & Hraise & _).
    { apply reach_init. }
    { simpl. lia. }
    destruct (Hraise e Hrun) as (st0 & Hr & Hlt & Hb).
    eapply run_raises_at; [ | | exact Hb].
    + eapply reachable_mono; eassumption.
    + lia.
  - intros st Hrun.
    destruct (generate_run_Ok_inv _ _ _ _ _ _ _ Hrun)
      as [(Hr & Hge) | (st0 & Hr & Hlt & Hb)].
    + split; [intros Hlt; lia | ].
      intros st' Hrun'.
      rewrite (generate_run_from_reachable model tokenizer temperature top_k
                 max_length' rng st (reachable_mono _ _ _ _ _ _ _ _ Hle Hr)) in Hrun'.
      eapply while_loop_extends. exact Hrun'.
    + assert (Hrun' : generate_run model tokenizer temperature top_k max_length' rng
                      = Ok st).
      { eapply run_breaks_at; [ | | exact Hb].
        - eapply reachable_mono; eassumption.
        - lia. }
      split; [intros _; exact Hrun' | ].
      intros st' Hst'. rewrite Hrun' in Hst'. inversion Hst'; subst st'.
      exists []. rewrite app_nil_r. reflexivity.
Qed.

(** X8. When [max_length] is positive, a model that answers the begin
    token with no position makes [generate] raise [IndexError]; one that
    answers with an empty score vector makes it raise [IndexError] in the
    greedy branch and [ValueError] in the sampling branch. *)
Theorem degenerate_model_output_raises
        (model : Model HX) (tokenizer : ByteTokenizer) (temperature : Q)
        (top_k : option Z) (max_length : Z) (rng : nat -> Q) :
  (0 < max_length)%Z ->
  (fst (model [bos_token_id tokenizer] None) = [] ->
   generate model tokenizer temperature top_k max_length rng = Raise IndexError) /\
  (last_position (fst (model [bos_token_id tokenizer] None)) = Ok [] ->
   (temperature <= 0 ->
    generate model tokenizer temperature top_k max_length rng = Raise IndexError) /\
   (0 < temperature ->
    generate model tokenizer temperature top_k max_length rng = Raise ValueError)).
Proof.
  intros Hpos.
  assert (Habort : forall e,
             loop_body model tokenizer temperature top_k rng (initial_state HX tokenizer)
             = Raise e ->
             generate model tokenizer temperature top_k max_length rng = Raise e).
  { intros e Hb. unfold generation.generate.
    rewrite (run_raises_at model tokenizer temperature top_k max_length rng
               (initial_state HX tokenizer) e
               (reach_init _ _ _ _ _ _ _ _ _ _) Hpos Hb).
    reflexivity. }
  split; [ | intros Hv; split].
  - intros Hempty. apply Habort.
    rewrite loop_body_last_position. simpl. rewrite Hempty. reflexivity.
  - intros Ht. apply Habort.
    rewrite loop_body_last_position. simpl. rewrite Hv. simpl.
    rewrite select_greedy by exact Ht. reflexivity.
  - intros Ht. apply Habort.
    rewrite loop_body_last_position. simpl. rewrite Hv. simpl.
    rewrite select_sampling by exact Ht. simpl.
    destruct top_k as [k | ]; [ | reflexivity].
    unfold generation.sample_top_k, np_argpartition. simpl.
    destruct (Z.leb_spec 0 (- k)); destruct (Z.ltb_spec (- k) 0); simpl;
      try reflexivity; lia.
Qed.

(** X11. With a temperature that is not positive and a model that always
    answers with at least one position and a non-empty score vector for the
    last one, [generate] raises nothing: it returns the decoding of the ids
    of the final state, for every [top_k], valid or not, and every
    [max_length]. *)
Theorem greedy_generate_returns
        (model : Model HX) (tokenizer : ByteTokenizer) (temperature : Q)
        (top_k : option Z) (max_length : Z) (rng : nat -> Q) :
  temperature <= 0 ->
  (forall t h, exists v, last_position (fst (model t h)) = Ok v /\ v <> []) ->
  exists st,
    generate_run model tokenizer temperature top_k max_length rng = Ok st /\
    generate model tokenizer temperature top_k max_length rng
    = Ok (decode tokenizer (gen_ids st)).
Proof.
  intros Ht Hmodel.
  assert (Hbody : forall st e,
             loop_body model tokenizer temperature top_k rng st <> Raise e).
  { intros st e Hb.
    destruct (Hmodel (tokens st) (hx st)) as (v & Hv & Hne).
    destruct (torch_argmax_first_max v Hne) as (i & Hi & _).
    assert (Hsel : select temperature top_k rng v (draws st)
                   = Ok (Z.of_nat i, draws st)).
    { rewrite select_greedy by exact Ht. rewrite Hi. reflexivity. }
    rewrite (loop_body_intro model tokenizer temperature top_k rng st v _ _ Hv Hsel)
      in Hb.
    cbv zeta in Hb. destruct (Z.of_nat i =? eos_token_id tokenizer)%Z; discriminate. }
  destruct (while_loop_exit model tokenizer temperature top_k max_length rng
              (Z.to_nat max_length) (initial_state HX tokenizer))
    as (Hfuel & Hraise & _).
  { apply reach_init. }
  { simpl. lia. }
  fold (generate_run model tokenizer temperature top_k max_length rng)
    in Hfuel, Hraise.
  unfold generation.generate.
  destruct (generate_run model tokenizer temperature top_k max_length rng)
    as [st | e | ] eqn:Hrun.
  - exists st. split; reflexivity.
  - exfalso. destruct (Hraise e eq_refl) as (st0 & _ & _ & Hb).
    exact (Hbody st0 e Hb).
  - exfalso. apply Hfuel. reflexivity.
Qed.

(** ** The branch a run takes *)

(** C9. With a temperature that is zero or negative every iteration of
    [generate] takes the greedy branch: on a non-empty score vector of the
    last position it selects the first maximal id, stops if that is the end
    id and appends it otherwise, and consumes no draw; the whole run returns
    what the run at temperature zero returns, whatever the generator and
    [top_k]. With a strictly positive temperature every iteration that
    returns took the sampling branch: its token is the result of the
    softmax sampling code on the scaled scores, and it consumed one draw. *)
Theorem nonpositive_temperature_runs_greedy
        (model : Model HX) (tokenizer : ByteTokenizer) (temperature : Q)
        (top_k : option Z) (max_length : Z) (rng : nat -> Q) :
  (temperature <= 0 ->
   (forall st v,
       last_position (fst (model (tokens st) (hx st))) = Ok v ->
       v <> [] ->
       exists i,
         first_max v i /\
         loop_body model tokenizer temperature top_k rng st
         = (let hx' := snd (model (tokens st) (hx st)) in
            let calls := (model_calls st ++ [(tokens st, hx st)])%list in
            if (Z.of_nat i =? eos_token_id tokenizer)%Z
            then Ok (Break, mkState (gen_ids st) hx' (tokens st) calls (draws st))
            else Ok (Continue,
                     mkState (gen_ids st ++ [Z.of_nat i])%list hx' [Z.of_nat i]
                             calls (draws st)))) /\
   (forall top_k' rng',
       generate_run model tokenizer temperature top_k max_length rng
       = generate_run model tokenizer 0 top_k' max_length rng' /\
       generate model tokenizer temperature top_k max_length rng
       = generate model tokenizer 0 top_k' max_length rng')) /\
  (0 < temperature ->
   forall st c st',
     loop_body model tokenizer temperature top_k rng st = Ok (c, st') ->
     exists v new_token,
       last_position (fst (model (tokens st) (hx st))) = Ok v /\
       (let p := F_softmax exp (map (fun x => x / temperature) v) in
        match top_k with
        | Some k => sample_top_k rng k p (draws st)
        | None =>
            t <- np_random_choice (map Z.of_nat (np_arange (length p))) p
                                  (rng (draws st)) ;;
            Ok (t, S (draws st))
        end) = Ok (new_token, S (draws st)) /\
       draws st' = S (draws st) /\
       ((c = Break /\ new_token = eos_token_id tokenizer /\
         gen_ids st' = gen_ids st)
        \/
        (c = Continue /\ new_token <> eos_token_id tokenizer /\
         gen_ids st' = (gen_ids st ++ [new_token])%list))).
Proof.
  split.
  - intros Ht. split.
    + intros st v Hv Hne.
      destruct (torch_argmax_first_max v Hne) as (i & Hi & Hfm).
      exists i. split; [exact Hfm | ].
      apply (loop_body_intro model tokenizer temperature top_k rng st v);
        [exact Hv | ].
      rewrite select_greedy by exact Ht. rewrite Hi. reflexivity.
    + intros top_k' rng'.
      assert (Hrun : generate_run model tokenizer temperature top_k max_length rng
                     = generate_run model tokenizer 0 top_k' max_length rng').
      { unfold generation.generate_run.
        apply while_loop_greedy_ext; [exact Ht | apply Qle_refl | reflexivity]. }
      split; [exact Hrun | ].
      unfold generation.generate. rewrite Hrun. reflexivity.
  - intros Ht st c st' Hb.
    apply loop_body_inv in Hb.
    destruct Hb as (v & tok & Hv & Hsel & _ & _ & Hc).
    pose proof Hsel as Hd. apply select_inv in Hd. destruct Hd as (_ & Hd).
    rewrite (proj2 (do_sample_iff temperature) Ht) in Hd.
    rewrite select_sampling in Hsel by exact Ht. rewrite Hd in Hsel.
    exists v, tok. split; [exact Hv | split; [exact Hsel | split; [exact Hd | ]]].
    destruct Hc as [(Hc & Htok & Hg & _) | (Hc & Hne & Hg & _)].
    + left. repeat split; assumption.
    + right. repeat split; assumption.
Qed.

Section Sampling.

Hypothesis exp_pos : exp_positive exp.
Hypothesis introselect_ok : selection_contract introselect.
Hypothesis quicksort_ok : sorting_contract quicksort.

Lemma F_softmax_distribution (v : list Q) :
  v <> [] ->
  Forall (fun x => 0 < x) (F_softmax exp v) /\ Qsum (F_softmax exp v) == 1.
Proof.
  intros Hne. destruct v as [ | x r]; [congruence | ].
  unfold F_softmax.
  set (m := fold_left Qmaxb r x).
  set (e := map (fun y => exp (y - m)) (x :: r)).
  assert (He : Forall (fun y => 0 < y) e).
  { unfold e. apply Forall_map. apply Forall_forall. intros y _. apply exp_pos. }
  assert (Hs : 0 < Qsum e) by (apply Qsum_pos; [discriminate | exact He]).
  split.
  - apply Forall_normalized_pos; assumption.
  - apply Qsum_normalized. exact Hs.
Qed.

Lemma sample_top_k_unfold (rng : nat -> Q) (k : Z) (p : list Q) (d : nat) :
  (1 <= k <= Z.of_nat (length p))%Z ->
  let cands := top_k_candidates introselect quicksort p k in
  sample_top_k rng k p d
  = (new_token <- np_random_choice (map Z.of_nat cands) (renormalized p cands) (rng d) ;;
     Ok (new_token, S d)).
Proof.
  intros Hk cands.
  unfold generation.sample_top_k, np_argpartition.
  set (n := length p) in *.
  set (kth := (n - Z.to_nat k)%nat).
  assert (Hkth : (kth < n)%nat) by (unfold kth; lia).
  destruct (introselect_ok p kth Hkth) as (Hperm & _ & _).
  fold n in Hperm.
  destruct (Z.leb_spec (- Z.of_nat n) (- k)) as [_ | Hbad]; [ | lia].
  destruct (Z.ltb_spec (- k) (Z.of_nat n)) as [_ | Hbad]; [ | lia].
  destruct (Z.ltb_spec (- k) 0) as [_ | Hbad]; [ | lia].
  replace (Z.to_nat (- k + Z.of_nat n)) with kth by (unfold kth; lia).
  simpl bind.
  set (part := introselect p kth) in *.
  assert (Hlen : length part = n)
    by (rewrite (Permutation_length Hperm), length_seq; reflexivity).
  assert (Hslice : py_slice_from (- k) part = skipn kth part).
  { unfold py_slice_from. rewrite Hlen.
    destruct (Z.ltb_spec (- k) 0) as [_ | Hbad]; [ | lia].
    f_equal. unfold kth. lia. }
  rewrite Hslice.
  set (slice := skipn kth part) in *.
  assert (Hpart_b : Forall (fun i => (i < n)%nat) part)
    by (apply Permutation_seq_bound; exact Hperm).
  assert (Hslice_b : Forall (fun i => (i < n)%nat) slice).
  { apply Forall_forall. intros c Hc.
    rewrite Forall_forall in Hpart_b. apply Hpart_b.
    unfold slice in Hc. rewrite <- (firstn_skipn kth part).
    apply in_or_app. right. exact Hc. }
  rewrite (np_take_Ok p slice 0 Hslice_b). simpl bind.
  set (order := np_argsort quicksort (map Qopp (map (fun i => nth i p 0) slice))).
  assert (Horder : Permutation order (seq 0 (length slice))).
  { unfold order, np_argsort.
    destruct (quicksort_ok (map Qopp (map (fun i => nth i p 0) slice))) as (H & _).
    rewrite !length_map in H. exact H. }
  rewrite (np_take_Ok slice order O
             (Permutation_seq_bound order (length slice) Horder)).
  simpl bind.
  change (map (fun i => nth i slice O) order) with cands.
  assert (Hcands : Permutation cands slice)
    by (apply Permutation_map_nth; exact Horder).
  assert (Hcands_b : Forall (fun i => (i < n)%nat) cands).
  { apply Forall_forall. intros c Hc. rewrite Forall_forall in Hslice_b.
    apply Hslice_b. eapply Permutation_in; eassumption. }
  rewrite (np_take_Ok p cands 0 Hcands_b). simpl bind.
  reflexivity.
Qed.

Lemma top_k_candidates_set (k : Z) (p : list Q) :
  (1 <= k <= Z.of_nat (length p))%Z ->
  top_k_set p k (top_k_candidates introselect quicksort p k).
Proof.
  intros Hk. unfold top_k_candidates.
  set (n := length p) in *.
  set (kth := (n - Z.to_nat k)%nat).
  assert (Hkth : (kth < n)%nat) by (unfold kth; lia).
  destruct (introselect_ok p kth Hkth) as (Hperm & Hbefore & Hafter).
  fold n in Hperm, Hafter.
  set (part := introselect p kth) in *.
  set (slice := skipn kth part).
  assert (Hlen : length part = n)
    by (rewrite (Permutation_length Hperm), length_seq; reflexivity).
  assert (Hnd : NoDup part).
  { eapply Permutation_NoDup; [apply Permutation_sym; exact Hperm | apply seq_NoDup]. }
  destruct (quicksort_ok (map Qopp (map (fun i => nth i p 0) slice))) as (Horder & _).
  rewrite !length_map in Horder.
  set (order := quicksort (map Qopp (map (fun i => nth i p 0) slice))) in *.
  assert (Hcands : Permutation (map (fun i => nth i slice O) order) slice)
    by (apply Permutation_map_nth; exact Horder).
  set (cands := map (fun i => nth i slice O) order) in *.
  assert (Hin_slice : forall c, In c cands <-> In c slice).
  { intros c. split; intros H.
    - eapply Permutation_in; eassumption.
    - eapply Permutation_in; [apply Permutation_sym | ]; eassumption. }
  unfold top_k_set. fold n. repeat split.
  - eapply Permutation_NoDup; [apply Permutation_sym; exact Hcands | ].
    apply NoDup_skipn. exact Hnd.
  - rewrite (Permutation_length Hcands). unfold slice.
    rewrite length_skipn, Hlen. unfold kth. lia.
  - intros c Hc. apply Hin_slice in Hc.
    destruct (In_skipn_nth kth part c O Hc) as (j & _ & Hj & <-).
    assert (Hin : In (nth j part O) part) by (apply nth_In; exact Hj).
    apply (Permutation_in _ Hperm) in Hin. apply in_seq in Hin. lia.
  - intros c o Hc Ho Hno.
    apply Hin_slice in Hc.
    destruct (In_skipn_nth kth part c O Hc) as (j & Hkj & Hj & <-).
    assert (Hin : In o part).
    { eapply Permutation_in; [apply Permutation_sym; exact Hperm | ].
      apply in_seq. lia. }
    destruct (In_nth _ _ O Hin) as (i & Hi & <-).
    assert (Hik : (i <= kth)%nat).
    { destruct (Nat.le_gt_cases i kth) as [H | H]; [exact H | exfalso].
      apply Hno. apply Hin_slice. apply nth_In_skipn; lia. }
    eapply Qle_trans; [apply Hbefore; exact Hik | ].
    apply Hafter; lia.
Qed.

Lemma np_argpartition_Ok_range (p : list Q) (kth : Z) (part : list nat) :
  np_argpartition introselect p kth = Ok part ->
  (- Z.of_nat (length p) <= kth < Z.of_nat (length p))%Z.
Proof.
  unfold np_argpartition.
  destruct (Z.leb_spec (- Z.of_nat (length p)) kth);
    destruct (Z.ltb_spec kth (Z.of_nat (length p))); simpl;
    try discriminate.
  intros _. lia.
Qed.

(** In exact arithmetic the sampling step returns a token for every draw
    from [0, 1), and the token is the one the draw selects among candidates
    and probabilities that do not depend on the draw. *)
Lemma select_samples_policy (temperature : Q) (top_k : option Z) (v : list Q) :
  0 < temperature ->
  v <> [] ->
  match top_k with
  | Some k => (1 <= k <= Z.of_nat (length v))%Z
  | None => True
  end ->
  exists ids q,
    sampling_policy exp temperature top_k v ids q /\
    forall rng d,
      0 <= rng d < 1 ->
      exists new_token,
        select temperature top_k rng v d = Ok (new_token, S d) /\
        sampled_from ids q (rng d) new_token.
Proof.
  intros Ht Hne Hk.
  set (scaled := map (fun x => x / temperature) v).
  set (p := F_softmax exp scaled).
  assert (Hscaled : scaled <> []).
  { intros E. apply Hne. apply (f_equal (@length Q)) in E.
    unfold scaled in E. rewrite length_map in E.
    destruct v; [reflexivity | discriminate]. }
  assert (Hplen : length p = length v)
    by (unfold p, scaled; rewrite F_softmax_length, length_map; reflexivity).
  destruct (F_softmax_distribution scaled Hscaled) as (Hpos & Hsum).
  fold p in Hpos, Hsum.
  assert (Hsoft : is_softmax exp (map (fun x => x * (1 / temperature)) v) p).
  { rewrite (map_ext _ (fun x => x / temperature)) by (intros a; apply Qscale_div).
    apply F_softmax_is_softmax. exact Hscaled. }
  destruct top_k as [k | ].
  - rewrite <- Hplen in Hk.
    pose proof (top_k_candidates_set k p Hk) as Hset.
    set (cands := top_k_candidates introselect quicksort p k) in *.
    exists cands, (renormalized p cands). split.
    + exists p. split; [exact Hsoft | split; [apply Forall_pos_nonneg; exact Hpos | ]].
      split; [exact Hsum | split; [exact Hset | reflexivity]].
    + intros rng d Hu.
      rewrite select_sampling by exact Ht. cbv zeta. fold scaled. fold p.
      rewrite (sample_top_k_unfold rng k p d Hk). fold cands.
      destruct Hset as (Hnd & Hlen & Hbound & Hdom).
      set (pk := map (fun c => nth c p 0) cands).
      assert (Hpk : Forall (fun x => 0 < x) pk).
      { unfold pk. apply Forall_map. apply Forall_forall. intros c Hc.
        rewrite Forall_forall in Hpos. apply Hpos. apply nth_In. apply Hbound. exact Hc. }
      assert (Hcne : cands <> []).
      { intros E. rewrite E in Hlen. simpl in Hlen. lia. }
      assert (Hpkne : pk <> []).
      { intros E. apply Hcne. apply (f_equal (@length Q)) in E.
        unfold pk in E. rewrite length_map in E.
        destruct cands; [reflexivity | discriminate]. }
      assert (Hs : 0 < Qsum pk) by (apply Qsum_pos; assumption).
      destruct (np_random_choice_sampled cands (renormalized p cands) (rng d))
        as (t & Hchoice & Hsampled).
      * exact Hcne.
      * unfold renormalized. rewrite !length_map. reflexivity.
      * unfold renormalized. fold pk. apply Forall_pos_nonneg.
        apply Forall_normalized_pos; assumption.
      * unfold renormalized. fold pk. apply Qsum_normalized. exact Hs.
      * exact Hu.
      * exists t. rewrite Hchoice. split; [reflexivity | exact Hsampled].
  - exists (seq 0 (length p)), p. split.
    + exists p. split; [exact Hsoft | split; [apply Forall_pos_nonneg; exact Hpos | ]].
      split; [exact Hsum | split; reflexivity].
    + intros rng d Hu.
      rewrite select_sampling by exact Ht. cbv zeta. fold scaled. fold p.
      destruct (np_random_choice_sampled (seq 0 (length p)) p (rng d))
        as (t & Hchoice & Hsampled).
      * rewrite Hplen. destruct v; [congruence | discriminate].
      * rewrite length_seq. reflexivity.
      * apply Forall_pos_nonneg. exact Hpos.
      * exact Hsum.
      * exact Hu.
      * exists t. unfold np_arange. rewrite Hchoice. split; [reflexivity | exact Hsampled].
Qed.

(** C2, amended. For every positive temperature and every iteration whose
    score vector [v] of the last position is not empty, with [top_k] unset
    or [1 <= top_k <= length v], the candidates and probabilities of the
    specified policy are fixed before the draw: scores scaled by
    [1/temperature], softmax to a probability distribution, then the
    [top_k] most probable ids renormalised to sum to one, or all ids when
    [top_k] is unset. For every stream of draws from [0, 1), an iteration
    that returns has consumed one draw and its token is the candidate whose
    interval of the cumulative distribution holds that draw. *)
Theorem sampling_step_follows_policy
        (model : Model HX) (tokenizer : ByteTokenizer) (temperature : Q)
        (top_k : option Z) (st : DecodeState HX) (v : list Q) :
  0 < temperature ->
  last_position (fst (model (tokens st) (hx st))) = Ok v ->
  v <> [] ->
  match top_k with
  | Some k => (1 <= k <= Z.of_nat (length v))%Z
  | None => True
  end ->
  exists ids q,
    sampling_policy exp temperature top_k v ids q /\
    forall rng c st',
      uniform_stream rng ->
      loop_body model tokenizer temperature top_k rng st = Ok (c, st') ->
      exists new_token,
        select temperature top_k rng v (draws st) = Ok (new_token, S (draws st)) /\
        sampled_from ids q (rng (draws st)) new_token /\
        draws st' = S (draws st) /\
        ((c = Break /\ new_token = eos_token_id tokenizer /\
          gen_ids st' = gen_ids st)
         \/
         (c = Continue /\ new_token <> eos_token_id tokenizer /\
          gen_ids st' = (gen_ids st ++ [new_token])%list)).
Proof.
  intros Ht Hv Hne Hk.
  destruct (select_samples_policy temperature top_k v Ht Hne Hk)
    as (ids & q & Hpolicy & Hdraw).
  exists ids, q. split; [exact Hpolicy | ].
  intros rng c st' Hrng Hb.
  destruct (Hdraw rng (draws st) (Hrng (draws st))) as (tok & Hsel & Hsampled).
  apply loop_body_inv in Hb.
  destruct Hb as (v' & tok' & Hv' & Hsel' & _ & _ & Hc).
  assert (v' = v) by congruence. subst v'.
  rewrite Hsel in Hsel'. inversion Hsel'; subst tok'.
  exists tok. split; [exact Hsel | split; [exact Hsampled | split; [congruence | ]]].
  destruct Hc as [(Hc & Htok & Hg & _) | (Hc & Hne' & Hg & _)].
  - left. repeat split; assumption.
  - right. repeat split; assumption.
Qed.

(** C4, amended. For every positive temperature and every [top_k = k] with
    [1 <= k], every token an iteration selects, be it appended or the end id
    that stops the loop, is an id of the vocabulary with fewer than [k] ids
    strictly more probable in the distribution of that iteration. *)
Theorem top_k_sample_within_top_k
        (model : Model HX) (tokenizer : ByteTokenizer) (temperature : Q)
        (k : Z) (rng : nat -> Q) (st st' : DecodeState HX) (c : control) :
  0 < temperature ->
  (1 <= k)%Z ->
  loop_body model tokenizer temperature (Some k) rng st = Ok (c, st') ->
  exists v new_token,
    last_position (fst (model (tokens st) (hx st))) = Ok v /\
    select temperature (Some k) rng v (draws st) = Ok (new_token, draws st') /\
    ((c = Break /\ new_token = eos_token_id tokenizer /\ gen_ids st' = gen_ids st)
     \/
     (c = Continue /\ gen_ids st' = (gen_ids st ++ [new_token])%list)) /\
    in_top_k (F_softmax exp (map (fun x => x / temperature) v)) k new_token = true.
Proof.
  intros Ht Hk Hb.
  apply loop_body_inv in Hb.
  destruct Hb as (v & tok & Hv & Hsel & _ & _ & Hc).
  exists v, tok. split; [exact Hv | split; [exact Hsel | split]].
  - destruct Hc as [(Hc & Htok & Hg & _) | (Hc & _ & Hg & _)].
    + left. repeat split; assumption.
    + right. split; assumption.
  - rewrite select_sampling in Hsel by exact Ht. cbv zeta in Hsel.
    set (p := F_softmax exp (map (fun x => x / temperature) v)) in *.
    assert (Hrange : (1 <= k <= Z.of_nat (length p))%Z).
    { pose proof Hsel as H. unfold generation.sample_top_k in H.
      apply bind_Ok_inv in H. destruct H as (part & Hpart & _).
      apply np_argpartition_Ok_range in Hpart. lia. }
    rewrite (sample_top_k_unfold rng k p (draws st) Hrange) in Hsel.
    apply bind_Ok_inv in Hsel. destruct Hsel as (t & Hchoice & Hret).
    inversion Hret; subst t.
    apply np_random_choice_In in Hchoice.
    apply in_map_iff in Hchoice. destruct Hchoice as (i & <- & Hi).
    pose proof (top_k_candidates_set k p Hrange) as Hset.
    pose proof (top_k_set_rank p k _ i Hset Hi) as Hrank.
    destruct Hset as (_ & _ & Hbound & _). specialize (Hbound i Hi).
    unfold in_top_k. rewrite Nat2Z.id.
    apply andb_true_iff. split; [apply andb_true_iff; split | ].
    + apply Z.leb_le. lia.
    + apply Z.ltb_lt. lia.
    + apply Z.ltb_lt. exact Hrank.
Qed.

(** ** A [top_k] that is not positive, and a [top_k] of one *)

Lemma sample_top_k_wraps (rng : nat -> Q) (k : Z) (p : list Q) (d : nat) :
  (- Z.of_nat (length p) < k <= 0)%Z ->
  sample_top_k rng k p d = sample_top_k rng (k + Z.of_nat (length p)) p d.
Proof.
  intros Hk.
  set (n := length p) in *.
  set (kth := Z.to_nat (- k)).
  assert (Hkth : (kth < n)%nat) by (unfold kth; lia).
  destruct (introselect_ok p kth Hkth) as (Hperm & _ & _).
  fold n in Hperm.
  assert (Hlen : length (introselect p kth) = n)
    by (rewrite (Permutation_length Hperm), length_seq; reflexivity).
  assert (E1 : np_argpartition introselect p (- k) = Ok (introselect p kth)).
  { unfold np_argpartition. fold n.
    destruct (Z.leb_spec (- Z.of_nat n) (- k)) as [_ | Hbad]; [ | lia].
    destruct (Z.ltb_spec (- k) (Z.of_nat n)) as [_ | Hbad]; [ | lia].
    destruct (Z.ltb_spec (- k) 0) as [Hbad | _]; [lia | ].
    reflexivity. }
  assert (E2 : np_argpartition introselect p (- (k + Z.of_nat n))
               = Ok (introselect p kth)).
  { unfold np_argpartition. fold n.
    destruct (Z.leb_spec (- Z.of_nat n) (- (k + Z.of_nat n))) as [_ | Hbad]; [ | lia].
    destruct (Z.ltb_spec (- (k + Z.of_nat n)) (Z.of_nat n)) as [_ | Hbad]; [ | lia].
    destruct (Z.ltb_spec (- (k + Z.of_nat n)) 0) as [_ | Hbad]; [ | lia].
    simpl. do 2 f_equal. unfold kth. lia. }
  assert (E3 : py_slice_from (- k) (introselect p kth)
               = py_slice_from (- (k + Z.of_nat n)) (introselect p kth)).
  { unfold py_slice_from. rewrite Hlen.
    destruct (Z.ltb_spec (- k) 0) as [Hbad | _]; [lia | ].
    destruct (Z.ltb_spec (- (k + Z.of_nat n)) 0) as [_ | Hbad]; [ | lia].
    f_equal. lia. }
  unfold generation.sample_top_k. rewrite E1, E2. simpl bind. rewrite E3.
  reflexivity.
Qed.

(** X9. A [top_k] from [-(V-1)] to [0], [V] the number of scores, is not
    rejected: the step behaves as with [top_k + V]. So [top_k = 0] keeps
    the whole vocabulary, and [top_k = -m] drops the [m] least probable
    ids. *)
Theorem nonpositive_top_k_wraps
        (model : Model HX) (tokenizer : ByteTokenizer) (temperature : Q)
        (k : Z) (rng : nat -> Q) (st : DecodeState HX) (v : list Q) :
  last_position (fst (model (tokens st) (hx st))) = Ok v ->
  (- Z.of_nat (length v) < k <= 0)%Z ->
  (forall d,
      select temperature (Some k) rng v d
      = select temperature (Some (k + Z.of_nat (length v))%Z) rng v d) /\
  loop_body model tokenizer temperature (Some k) rng st
  = loop_body model tokenizer temperature (Some (k + Z.of_nat (length v))%Z) rng st.
Proof.
  intros Hv Hk.
  assert (Hsel : forall d,
             select temperature (Some k) rng v d
             = select temperature (Some (k + Z.of_nat (length v))%Z) rng v d).
  { intros d. unfold generation.select.
    destruct (negb (do_sample temperature)); [reflexivity | ].
    cbv zeta.
    set (p := F_softmax exp (map (fun x => x / temperature) v)).
    assert (Hlen : length p = length v)
      by (unfold p; rewrite F_softmax_length, length_map; reflexivity).
    rewrite <- Hlen. apply sample_top_k_wraps. rewrite Hlen. exact Hk. }
  split; [exact Hsel | ].
  rewrite !loop_body_last_position. rewrite Hv. simpl bind.
  rewrite Hsel. reflexivity.
Qed.

(** X10. With [top_k = 1] and a positive temperature the token does not
    depend on the uniform draw: two steps on the same scores that return,
    whatever their streams of draws, return the same id, each has consumed
    one draw, and no id is more probable than that one. *)
Theorem top_k_one_is_deterministic
        (temperature : Q) (rng rng' : nat -> Q) (v : list Q) (d d' d1 d1' : nat)
        (new_token new_token' : Z) :
  0 < temperature ->
  select temperature (Some 1%Z) rng v d = Ok (new_token, d1) ->
  select temperature (Some 1%Z) rng' v d' = Ok (new_token', d1') ->
  new_token = new_token' /\ d1 = S d /\ d1' = S d' /\
  exists i,
    new_token = Z.of_nat i /\ (i < length v)%nat /\
    forall j, (j < length v)%nat ->
      nth j (F_softmax exp (map (fun x => x / temperature) v)) 0
      <= nth i (F_softmax exp (map (fun x => x / temperature) v)) 0.
Proof.
  intros Ht Hsel Hsel'.
  rewrite select_sampling in Hsel, Hsel' by exact Ht. cbv zeta in Hsel, Hsel'.
  set (p := F_softmax exp (map (fun x => x / temperature) v)) in *.
  assert (Hplen : length p = length v)
    by (unfold p; rewrite F_softmax_length, length_map; reflexivity).
  assert (Hk : (1 <= 1 <= Z.of_nat (length p))%Z).
  { pose proof Hsel as H. unfold generation.sample_top_k in H.
    apply bind_Ok_inv in H. destruct H as (part & Hpart & _).
    apply np_argpartition_Ok_range in Hpart. lia. }
  destruct (top_k_candidates_set 1 p Hk) as (_ & Hlen & Hbound & Hdom).
  rewrite (sample_top_k_unfold rng 1 p d Hk) in Hsel.
  rewrite (sample_top_k_unfold rng' 1 p d' Hk) in Hsel'.
  destruct (top_k_candidates introselect quicksort p 1) as [ | c [ | c' r]] eqn:Ec;
    [simpl in Hlen; lia | | simpl in Hlen; lia].
  apply bind_Ok_inv in Hsel. destruct Hsel as (t & Hchoice & Hret).
  apply bind_Ok_inv in Hsel'. destruct Hsel' as (t' & Hchoice' & Hret').
  inversion Hret; subst t d1. inversion Hret'; subst t' d1'.
  apply np_random_choice_In in Hchoice. apply np_random_choice_In in Hchoice'.
  destruct Hchoice as [Hc | []]. destruct Hchoice' as [Hc' | []].
  subst new_token new_token'.
  split; [reflexivity | split; [reflexivity | split; [reflexivity | ]]].
  exists c.
  assert (Hcb : (c < length p)%nat) by (apply Hbound; left; reflexivity).
  split; [reflexivity | split; [rewrite <- Hplen; exact Hcb | ]].
  intros j Hj.
  destruct (Nat.eq_dec j c) as [-> | Hjc]; [apply Qle_refl | ].
  apply Hdom.
  - left; reflexivity.
  - rewrite Hplen. exact Hj.
  - intros [E | []]. congruence.
Qed.

(** ** No validation of the configuration, continued *)

Lemma select_top_k_wraps (temperature : Q) (k : Z) (rng : nat -> Q)
      (v : list Q) (d : nat) :
  (- Z.of_nat (length v) < k <= 0)%Z ->
  select temperature (Some k) rng v d
  = select temperature (Some (k + Z.of_nat (length v))%Z) rng v d.
Proof.
  intros Hk. unfold generation.select.
  destruct (negb (do_sample temperature)); [reflexivity | ].
  cbv zeta.
  set (p := F_softmax exp (map (fun x => x / temperature) v)).
  assert (Hlen : length p = length v)
    by (unfold p; rewrite F_softmax_length, length_map; reflexivity).
  rewrite <- Hlen. apply sample_top_k_wraps. rewrite Hlen. exact Hk.
Qed.

(** C5, amended. [generate] validates nothing before the loop and raises
    no configuration error. An exception can only come out of an iteration,
    hence only when [max_length] is positive and after a call of the model;
    a negative temperature runs as temperature zero does; a negative
    [max_length] returns the decoding of no token; a [top_k] from [-(V-1)]
    to [0], [V] the number of scores, is not rejected and selects as
    [top_k + V] does; and a [top_k] above [V], or at most [-V], makes the
    first iteration of a sampling run raise the [ValueError] of
    [np.argpartition]. *)
Theorem configuration_not_validated
        (model : Model HX) (tokenizer : ByteTokenizer) (temperature : Q)
        (top_k : option Z) (max_length : Z) (rng : nat -> Q) :
  (forall e,
      generate_run model tokenizer temperature top_k max_length rng = Raise e ->
      (0 < max_length)%Z /\
      exists st0,
        reachable model tokenizer temperature top_k max_length rng st0 /\
        loop_body model tokenizer temperature top_k rng st0 = Raise e) /\
  (temperature < 0 ->
   generate_run model tokenizer temperature top_k max_length rng
   = generate_run model tokenizer 0 top_k max_length rng) /\
  ((max_length < 0)%Z ->
   generate model tokenizer temperature top_k max_length rng
   = Ok (decode tokenizer [])) /\
  (forall k v d,
      (- Z.of_nat (length v) < k <= 0)%Z ->
      select temperature (Some k) rng v d
      = select temperature (Some (k + Z.of_nat (length v))%Z) rng v d) /\
  (forall k v,
      0 < temperature -> top_k = Some k -> (0 < max_length)%Z ->
      last_position (fst (model [bos_token_id tokenizer] None)) = Ok v ->
      (Z.of_nat (length v) < k \/ k <= - Z.of_nat (length v))%Z ->
      generate_run model tokenizer temperature top_k max_length rng
      = Raise ValueError).
Proof.
  split; [ | split; [ | split; [ | split]]].
  - intros e Hrun.
    destruct (Z.ltb_spec 0 max_length) as [Hpos | Hle].
    + split; [exact Hpos | ].
      destruct (while_loop_exit model tokenizer temperature top_k max_length rng
                  (Z.to_nat max_length) (initial_state HX tokenizer))
        as (_ & Hraise & _).
      { apply reach_init. }
      { simpl. lia. }
      destruct (Hraise e Hrun) as (st0 & Hr & _ & Hb).
      exists st0. split; assumption.
    + rewrite (generate_run_no_iteration _ _ _ _ _ _ Hle) in Hrun. discriminate.
  - intros Hneg. unfold generation.generate_run.
    apply while_loop_greedy_ext.
    + apply Qlt_le_weak; exact Hneg.
    + apply Qle_refl.
    + reflexivity.
  - intros Hneg. unfold generation.generate.
    rewrite generate_run_no_iteration by lia. reflexivity.
  - intros k v d Hk. apply select_top_k_wraps. exact Hk.
  - intros k v Ht Hk Hpos Hv Hout. subst top_k.
    unfold generation.generate_run.
    destruct (Z.to_nat max_length) as [ | fuel] eqn:Ef; [lia | ].
    simpl.
    destruct (Z.ltb_spec 0 max_length) as [_ | Hle]; [ | lia].
    rewrite loop_body_last_position. simpl. rewrite Hv. simpl.
    rewrite select_sampling by exact Ht. cbv zeta.
    unfold generation.sample_top_k.
    rewrite np_argpartition_out_of_bounds; [reflexivity | ].
    rewrite F_softmax_length, length_map. exact Hout.
Qed.

End Sampling.

End Decoding.

(** ** The executable instances meet what the statements assume *)

Lemma rat_exp_positive : exp_positive rat_exp.
Proof.
  intros x. unfold rat_exp.
  destruct (Qle_bool 0 x) eqn:E.
  - apply Qle_bool_iff in E. lra.
  - assert (Hx : x < 0).
    { apply Qlt_bool_iff. unfold Qlt_bool. rewrite E. reflexivity. }
    apply Qdiv_pos; lra.
Qed.

Lemma half_rng_uniform : uniform_stream half_rng.
Proof. intros n. unfold half_rng. split; lra. Qed.

Lemma insert_index_perm (a : list Q) (i : nat) (l : list nat) :
  Permutation (insert_index a i l) (i :: l).
Proof.
  induction l as [ | j r IH]; simpl.
  - apply Permutation_refl.
  - destruct (Qle_bool (nth i a 0) (nth j a 0)).
    + apply Permutation_refl.
    + eapply Permutation_trans; [apply perm_skip; exact IH | apply perm_swap].
Qed.

Lemma sorted_indices_perm (a : list Q) :
  Permutation (sorted_indices a) (seq 0 (length a)).
Proof.
  unfold sorted_indices.
  induction (seq 0 (length a)) as [ | i r IH]; simpl.
  - apply Permutation_refl.
  - eapply Permutation_trans; [apply insert_index_perm | apply perm_skip; exact IH].
Qed.

Lemma ascending_cons (a : list Q) (x : nat) (l : list nat) :
  ascending a l ->
  (forall y, In y l -> nth x a 0 <= nth y a 0) ->
  ascending a (x :: l).
Proof.
  intros Hl Hx i j Hij Hj. simpl in Hj.
  destruct i as [ | i], j as [ | j]; simpl.
  - apply Qle_refl.
  - apply Hx. apply nth_In. lia.
  - lia.
  - apply Hl; lia.
Qed.

Lemma ascending_inv (a : list Q) (x : nat) (l : list nat) :
  ascending a (x :: l) ->
  ascending a l /\ (forall y, In y l -> nth x a 0 <= nth y a 0).
Proof.
  intros H. split.
  - intros i j Hij Hj. apply (H (S i) (S j)); simpl; lia.
  - intros y Hy. destruct (In_nth _ _ O Hy) as (j & Hj & <-).
    apply (H 0%nat (S j)); simpl; lia.
Qed.

Lemma insert_index_ascending (a : list Q) (i : nat) (l : list nat) :
  ascending a l -> ascending a (insert_index a i l).
Proof.
  induction l as [ | j r IH]; intros Hl; simpl.
  - apply ascending_cons; [exact Hl | intros y []].
  - destruct (ascending_inv a j r Hl) as (Hr & Hj).
    destruct (Qle_bool (nth i a 0) (nth j a 0)) eqn:E.
    + apply Qle_bool_iff in E.
      apply ascending_cons; [exact Hl | ].
      intros y [<- | Hy]; [exact E | ].
      eapply Qle_trans; [exact E | apply Hj; exact Hy].
    + assert (Hlt : nth j a 0 < nth i a 0).
      { apply Qlt_bool_iff. unfold Qlt_bool. rewrite E. reflexivity. }
      apply ascending_cons; [apply IH; exact Hr | ].
      intros y Hy. apply (Permutation_in _ (insert_index_perm a i r)) in Hy.
      destruct Hy as [<- | Hy]; [apply Qlt_le_weak; exact Hlt | apply Hj; exact Hy].
Qed.

Lemma sorted_indices_ascending (a : list Q) : ascending a (sorted_indices a).
Proof.
  unfold sorted_indices.
  induction (seq 0 (length a)) as [ | i r IH]; simpl.
  - intros i j _ Hj. simpl in Hj. lia.
  - apply insert_index_ascending. exact IH.
Qed.

Lemma sort_select_contract : selection_contract sort_select.
Proof.
  intros a kth Hk. unfold sort_select.
  pose proof (sorted_indices_perm a) as Hperm.
  pose proof (sorted_indices_ascending a) as Hasc.
  assert (Hlen : length (sorted_indices a) = length a)
    by (rewrite (Permutation_length Hperm), length_seq; reflexivity).
  split; [exact Hperm | split].
  - intros i Hi. apply Hasc; [exact Hi | lia].
  - intros j Hkj Hj. apply Hasc; [exact Hkj | lia].
Qed.

Lemma sorted_indices_contract : sorting_contract sorted_indices.
Proof.
  intros a. split; [apply sorted_indices_perm | apply sorted_indices_ascending].
Qed.

(** ** The statements at concrete inputs *)

Lemma greedy_step_selects_first_max_witness :
  0 == 0 /\
  exists i, first_max first_scores i /\
            select rat_exp sort_select sorted_indices 0 None half_rng first_scores 0
            = Ok (Z.of_nat i, 0%nat).
Proof.
  split; [reflexivity | ].
  destruct (greedy_step_selects_first_max rat_exp sort_select sorted_indices nat
              successor_model plain_tokenizer 0 None half_rng
              (initial_state nat plain_tokenizer) first_scores)
    as (i & Hfm & _ & Hsel & _).
  - reflexivity.
  - reflexivity.
  - discriminate.
  - exists i. split; [exact Hfm | exact Hsel].
Defined.

Lemma greedy_generate_deterministic_witness :
  0 == 0 /\
  generate rat_exp sort_select sorted_indices nat successor_model plain_tokenizer
           0 None 5 half_rng
  = generate rat_exp sort_select sorted_indices nat successor_model plain_tokenizer
             0 (Some 2%Z) 5 high_rng.
Proof.
  split; [reflexivity | ].
  apply (greedy_generate_deterministic rat_exp sort_select sorted_indices nat
           successor_model successor_model plain_tokenizer 0 None (Some 2%Z) 5
           half_rng high_rng).
  - reflexivity.
  - intros t h. reflexivity.
Defined.

Lemma generate_zero_length_witness :
  decode plain_tokenizer [] = String.EmptyString /\
  generate rat_exp sort_select sorted_indices nat successor_model plain_tokenizer
           1 (Some 2%Z) 0 half_rng
  = Ok String.EmptyString.
Proof.
  split; [reflexivity | ].
  apply (generate_zero_length rat_exp sort_select sorted_indices nat
           successor_model plain_tokenizer 1 (Some 2%Z) half_rng).
  reflexivity.
Defined.

Lemma generate_nonpositive_length_witness :
  (-3 <= 0)%Z /\
  generate rat_exp sort_select sorted_indices nat successor_model plain_tokenizer
           1 (Some 2%Z) (-3) half_rng
  = Ok (decode plain_tokenizer []).
Proof.
  split; [lia | ].
  apply (generate_nonpositive_length rat_exp sort_select sorted_indices nat
           successor_model plain_tokenizer 1 (Some 2%Z) (-3) half_rng).
  lia.
Defined.

Lemma emitted_length_bounded_witness :
  (0 <= 2)%Z /\
  forall st,
    generate_run rat_exp sort_select sorted_indices nat successor_model
                 plain_tokenizer 1 None 2 half_rng = Ok st ->
    (Z.of_nat (length (gen_ids st)) <= 2)%Z.
Proof.
  split; [lia | ].
  intros st Hrun.
  destruct (emitted_length_bounded rat_exp sort_select sorted_indices nat
              successor_model plain_tokenizer 1 None 2 half_rng)
    as (_ & _ & Hfinal).
  - lia.
  - destruct (Hfinal st Hrun) as (Hlen & _). exact Hlen.
Defined.

Lemma sampling_step_follows_policy_witness :
  0 < 1 /\
  exists ids q,
    sampling_policy rat_exp 1 (Some 2%Z) first_scores ids q /\
    sampled_from ids q (half_rng 0%nat) 1 /\
    sampled_from ids q (high_rng 0%nat) 3.
Proof.
  split; [reflexivity | ].
  assert (Hhigh : uniform_stream high_rng)
    by (intros n; unfold high_rng; split; [discriminate | reflexivity]).
  destruct (sampling_step_follows_policy rat_exp sort_select sorted_indices nat
              rat_exp_positive sort_select_contract sorted_indices_contract
              successor_model plain_tokenizer 1 (Some 2%Z)
              (initial_state nat plain_tokenizer) first_scores)
    as (ids & q & Hpolicy & Hall).
  - reflexivity.
  - reflexivity.
  - discriminate.
  - simpl. lia.
  - destruct (Hall half_rng Continue
                (mkState [1%Z] (Some 1%nat) [1%Z] [([0%Z], None)] 1)
                half_rng_uniform)
      as (tok & Hsel & Hsampled & _).
    + vm_compute. reflexivity.
    + destruct (Hall high_rng Break
                  (mkState [] (Some 1%nat) [0%Z] [([0%Z], None)] 1) Hhigh)
        as (tok' & Hsel' & Hsampled' & _).
      * vm_compute. reflexivity.
      * vm_compute in Hsel. inversion Hsel; subst tok.
        vm_compute in Hsel'. inversion Hsel'; subst tok'.
        exists ids, q.
        split; [exact Hpolicy | split; [exact Hsampled | exact Hsampled']].
Defined.

Lemma top_k_sample_within_top_k_witness :
  0 < 1 /\ (1 <= 2)%Z /\
  exists v new_token,
    select rat_exp sort_select sorted_indices 1 (Some 2%Z) half_rng v 0
    = Ok (new_token, 1%nat) /\
    in_top_k (F_softmax rat_exp (map (fun x => x / 1) v)) 2 new_token = true.
Proof.
  split; [reflexivity | split; [lia | ]].
  destruct (top_k_sample_within_top_k rat_exp sort_select sorted_indices nat
              sort_select_contract sorted_indices_contract
              successor_model plain_tokenizer 1 2 half_rng
              (initial_state nat plain_tokenizer)
              (mkState [1%Z] (Some 1%nat) [1%Z] [([0%Z], None)] 1)
              Continue)
    as (v & tok & _ & Hsel & _ & Htop).
  - reflexivity.
  - lia.
  - vm_compute. reflexivity.
  - exists v, tok. split; [exact Hsel | exact Htop].
Defined.

Lemma last_position_and_state_threading_witness :
  generate_run rat_exp sort_select sorted_indices nat successor_model
               plain_tokenizer 1 (Some 2%Z) 3 half_rng
  = generate_run rat_exp sort_select sorted_indices nat padded_model
                 plain_tokenizer 1 (Some 2%Z) 3 half_rng.
Proof.
  destruct (last_position_and_state_threading rat_exp sort_select sorted_indices nat
              successor_model padded_model plain_tokenizer 1 (Some 2%Z) 3 half_rng)
    as (Hlast & _).
  apply Hlast. intros t h. split; reflexivity.
Defined.

Lemma nonpositive_temperature_runs_greedy_witness :
  -1 <= 0 /\
  generate rat_exp sort_select sorted_indices nat successor_model plain_tokenizer
           (-1) (Some 2%Z) 5 half_rng
  = generate rat_exp sort_select sorted_indices nat successor_model plain_tokenizer
             0 None 5 high_rng.
Proof.
  split; [discriminate | ].
  destruct (nonpositive_temperature_runs_greedy rat_exp sort_select sorted_indices nat
              successor_model plain_tokenizer (-1) (Some 2%Z) 5 half_rng)
    as (Hgreedy & _).
  destruct Hgreedy as (_ & Hrun); [discriminate | ].
  exact (proj2 (Hrun None high_rng)).
Defined.

Lemma configuration_not_validated_witness :
  generate_run rat_exp sort_select sorted_indices nat successor_model
               plain_tokenizer 1 (Some 5%Z) 3 half_rng
  = Raise ValueError /\
  select rat_exp sort_select sorted_indices 1 (Some 0%Z) half_rng first_scores 0
  = select rat_exp sort_select sorted_indices 1 (Some 4%Z) half_rng first_scores 0.
Proof.
  destruct (configuration_not_validated rat_exp sort_select sorted_indices nat
              sort_select_contract
              successor_model plain_tokenizer 1 (Some 5%Z) 3 half_rng)
    as (_ & _ & _ & Hwrap & Htop).
  split.
  - apply (Htop 5%Z first_scores).
    + reflexivity.
    + reflexivity.
    + lia.
    + reflexivity.
    + left. simpl. lia.
  - apply (Hwrap 0%Z first_scores 0%nat). simpl. lia.
Defined.

(** ** Where the statements of the specification fail *)

(** C3 as stated fails: with [max_length = -1] the run returns, and its
    list of emitted ids, empty as it is, is longer than [max_length]. *)
Lemma emitted_length_exceeds_negative_max_length :
  exists st,
    generate_run rat_exp sort_select sorted_indices nat successor_model
                 plain_tokenizer 0 None (-1) half_rng = Ok st /\
    reachable rat_exp sort_select sorted_indices nat successor_model
              plain_tokenizer 0 None (-1) half_rng st /\
    ~ (Z.of_nat (length (gen_ids st)) <= -1)%Z.
Proof.
  exists (initial_state nat plain_tokenizer).
  split; [reflexivity | split; [apply reach_init | ]].
  simpl. lia.
Qed.

(** C5 as stated fails: a negative temperature, a [top_k] of zero and a
    negative [max_length] are each invalid for the specification, and each
    run returns a text instead of raising. *)
Lemma invalid_configurations_return :
  (invalid_config 4 (-1) None 2 = true /\
   generate rat_exp sort_select sorted_indices nat successor_model plain_tokenizer
            (-1) None 2 half_rng = Ok (decode plain_tokenizer [1; 2]%Z)) /\
  (invalid_config 4 1 (Some 0%Z) 1 = true /\
   generate rat_exp sort_select sorted_indices nat successor_model plain_tokenizer
            1 (Some 0%Z) 1 top_rng = Ok (decode plain_tokenizer [0]%Z)) /\
  (invalid_config 4 1 None (-2) = true /\
   generate rat_exp sort_select sorted_indices nat successor_model plain_tokenizer
            1 None (-2) half_rng = Ok String.EmptyString).
Proof.
  repeat split; vm_compute; reflexivity.
Qed.

(** C2 as stated fails: with [top_k = 0] the step selects id 0 out of the
    whole vocabulary, while the policy has no candidate to draw from among
    the zero most probable ids; with [top_k = -1] it selects among three of
    the four ids, while no set of ids has [-1] members; with [top_k = 5],
    above the size of the vocabulary, it raises. *)
Lemma top_k_out_of_range_breaks_policy :
  0 < 1 /\
  (select rat_exp sort_select sorted_indices 1 (Some 0%Z) top_rng first_scores 0
   = Ok (0%Z, 1%nat) /\
   forall ids q,
     sampling_policy rat_exp 1 (Some 0%Z) first_scores ids q ->
     forall new_token, ~ sampled_from ids q (top_rng 0%nat) new_token) /\
  (select rat_exp sort_select sorted_indices 1 (Some (-1)%Z) high_rng first_scores 0
   = Ok (2%Z, 1%nat) /\
   forall ids q, ~ sampling_policy rat_exp 1 (Some (-1)%Z) first_scores ids q) /\
  select rat_exp sort_select sorted_indices 1 (Some 5%Z) high_rng first_scores 0
  = Raise ValueError.
Proof.
  split; [reflexivity | ].
  split; [split; [vm_compute; reflexivity | ] | split; [split; [vm_compute; reflexivity | ] | ]].
  - intros ids q (p & _ & _ & _ & (_ & Hlen & _) & _) tok Hsampled.
    destruct ids as [ | c r]; [ | simpl in Hlen; lia].
    destruct Hsampled as (_ & _ & _ & idx & i & Hnth & _).
    destruct idx; discriminate.
  - intros ids q (p & _ & _ & _ & (_ & Hlen & _) & _). lia.
  - vm_compute. reflexivity.
Qed.

(** C4 as stated fails: with [top_k = 0] and a draw of 19/20 the first
    iteration appends id 0, the least probable id of its distribution,
    which is not among the zero most probable ids (nor among the three most
    probable); with [top_k = -1] and a draw of 9/10 it appends id 2,
    outside the two most probable. *)
Lemma top_k_zero_token_outside_top_k :
  0 < 1 /\
  last_position (fst (successor_model [0%Z] None)) = Ok first_scores /\
  (loop_body rat_exp sort_select sorted_indices nat successor_model plain_tokenizer
             1 (Some 0%Z) top_rng (initial_state nat plain_tokenizer)
   = Ok (Continue, mkState [0%Z] (Some 1%nat) [0%Z] [([0%Z], None)] 1) /\
   in_top_k (F_softmax rat_exp (map (fun x => x / 1) first_scores)) 0 0 = false /\
   in_top_k (F_softmax rat_exp (map (fun x => x / 1) first_scores)) 3 0 = false) /\
  (loop_body rat_exp sort_select sorted_indices nat successor_model plain_tokenizer
             1 (Some (-1)%Z) high_rng (initial_state nat plain_tokenizer)
   = Ok (Continue, mkState [2%Z] (Some 1%nat) [2%Z] [([0%Z], None)] 1) /\
   in_top_k (F_softmax rat_exp (map (fun x => x / 1) first_scores)) (-1) 2 = false /\
   in_top_k (F_softmax rat_exp (map (fun x => x / 1) first_scores)) 2 2 = false).
Proof.
  split; [reflexivity | ].
  repeat split; vm_compute; reflexivity.
Qed.

(** ** The further properties at concrete inputs *)

Lemma successor_model_vocabulary (t : list Z) (h : option nat) (v : list Q) :
  last_position (fst (successor_model t h)) = Ok v -> length v = 4%nat.
Proof.
  unfold successor_model, last_position. simpl.
  intros H. inversion H. reflexivity.
Qed.

Lemma emitted_ids_are_vocabulary_ids_witness :
  Forall (fun tok => (0 <= tok < 4)%Z) [1%Z; 2%Z].
Proof.
  apply (emitted_ids_are_vocabulary_ids rat_exp sort_select sorted_indices nat
           successor_model plain_tokenizer 1 (Some 2%Z) 3 half_rng 4
           (mkState [1%Z; 2%Z] (Some 3%nat) [2%Z]
                    [([0%Z], None); ([1%Z], Some 1%nat); ([2%Z], Some 2%nat)] 3)).
  - exact successor_model_vocabulary.
  - vm_compute. reflexivity.
Defined.

Lemma forward_calls_bounded_witness :
  (Z.of_nat 3 <= Z.max 0 3)%Z.
Proof.
  destruct (forward_calls_bounded rat_exp sort_select sorted_indices nat
              successor_model plain_tokenizer 1 (Some 2%Z) 3 half_rng
              (mkState [1%Z; 2%Z] (Some 3%nat) [2%Z]
                       [([0%Z], None); ([1%Z], Some 1%nat); ([2%Z], Some 2%nat)] 3))
    as (_ & Hbound).
  - vm_compute. reflexivity.
  - exact Hbound.
Defined.

Lemma draws_match_forward_calls_witness :
  0 < 1 /\
  draws (mkState [1%Z; 2%Z] (Some 3%nat) [2%Z]
                 [([0%Z], @None nat); ([1%Z], Some 1%nat); ([2%Z], Some 2%nat)] 3)
  = 3%nat.
Proof.
  split; [reflexivity | ].
  destruct (draws_match_forward_calls rat_exp sort_select sorted_indices nat
              successor_model plain_tokenizer 1 (Some 2%Z) 3 half_rng
              (mkState [1%Z; 2%Z] (Some 3%nat) [2%Z]
                       [([0%Z], None); ([1%Z], Some 1%nat); ([2%Z], Some 2%nat)] 3))
    as (Hsampling & _).
  - vm_compute. reflexivity.
  - apply Hsampling. reflexivity.
Defined.

Lemma first_scores_first_max : first_max first_scores 1.
Proof.
  destruct (torch_argmax_first_max first_scores) as (i & Hi & Hfm); [discriminate | ].
  vm_compute in Hi. inversion Hi; subst i. exact Hfm.
Qed.

Lemma early_stop_single_call_witness :
  0 <= 0 /\ (0 < 5)%Z /\
  generate rat_exp sort_select sorted_indices nat successor_model early_tokenizer
           0 None 5 half_rng
  = Ok (decode early_tokenizer []).
Proof.
  split; [apply Qle_refl | split; [lia | ]].
  destruct (early_stop_single_call rat_exp sort_select sorted_indices nat
              successor_model early_tokenizer 0 None 5 half_rng first_scores 1)
    as (Hgen & _).
  - apply Qle_refl.
  - lia.
  - reflexivity.
  - exact first_scores_first_max.
  - reflexivity.
  - exact Hgen.
Defined.

Lemma end_token_returns_prefix_witness :
  (0 < 5)%Z /\
  generate rat_exp sort_select sorted_indices nat successor_model early_tokenizer
           0 None 5 half_rng
  = Ok (decode early_tokenizer (gen_ids (initial_state nat early_tokenizer))).
Proof.
  split; [lia | ].
  apply (end_token_returns_prefix rat_exp sort_select sorted_indices nat
           successor_model early_tokenizer 0 None 5 half_rng
           (initial_state nat early_tokenizer) first_scores 0).
  - apply reach_init.
  - simpl. lia.
  - reflexivity.
  - vm_compute. reflexivity.
Defined.

Lemma iteration_error_aborts_run_witness :
  (0 < 3)%Z /\
  generate rat_exp sort_select sorted_indices nat successor_model plain_tokenizer
           1 (Some 5%Z) 3 half_rng
  = Raise ValueError.
Proof.
  split; [lia | ].
  apply (iteration_error_aborts_run rat_exp sort_select sorted_indices nat
           successor_model plain_tokenizer 1 (Some 5%Z) 3 half_rng
           (initial_state nat plain_tokenizer) ValueError).
  - apply reach_init.
  - simpl. lia.
  - vm_compute. reflexivity.
Defined.

Lemma longer_max_length_extends_witness :
  (1 <= 3)%Z /\
  forall st',
    generate_run rat_exp sort_select sorted_indices nat successor_model
                 plain_tokenizer 0 None 3 half_rng = Ok st' ->
    exists suffix, gen_ids st' = ([1%Z] ++ suffix)%list.
Proof.
  split; [lia | ].
  destruct (longer_max_length_extends rat_exp sort_select sorted_indices nat
              successor_model plain_tokenizer 0 None 1 3 half_rng)
    as (_ & Hok).
  - lia.
  - destruct (Hok (mkState [1%Z] (Some 1%nat) [1%Z] [([0%Z], None)] 0))
      as (_ & Hprefix).
    + vm_compute. reflexivity.
    + exact Hprefix.
Defined.

Lemma degenerate_model_output_raises_witness :
  (0 < 2)%Z /\
  generate rat_exp sort_select sorted_indices nat silent_model plain_tokenizer
           1 None 2 half_rng = Raise IndexError /\
  generate rat_exp sort_select sorted_indices nat empty_vocabulary_model
           plain_tokenizer 1 (Some 1%Z) 2 half_rng = Raise ValueError.
Proof.
  split; [lia | split].
  - destruct (degenerate_model_output_raises rat_exp sort_select sorted_indices nat
                silent_model plain_tokenizer 1 None 2 half_rng)
      as (Hsilent & _).
    + lia.
    + apply Hsilent. reflexivity.
  - destruct (degenerate_model_output_raises rat_exp sort_select sorted_indices nat
                empty_vocabulary_model plain_tokenizer 1 (Some 1%Z) 2 half_rng)
      as (_ & Hempty).
    + lia.
    + destruct (Hempty eq_refl) as (_ & Hsampling).
      apply Hsampling. reflexivity.
Defined.

Lemma nonpositive_top_k_wraps_witness :
  (- 4 < 0 <= 0)%Z /\
  select rat_exp sort_select sorted_indices 1 (Some 0%Z) high_rng first_scores 0
  = select rat_exp sort_select sorted_indices 1 (Some 4%Z) high_rng first_scores 0.
Proof.
  split; [lia | ].
  destruct (nonpositive_top_k_wraps rat_exp sort_select sorted_indices nat
              sort_select_contract successor_model plain_tokenizer 1 0 high_rng
              (initial_state nat plain_tokenizer) first_scores)
    as (Hsel & _).
  - reflexivity.
  - simpl. lia.
  - exact (Hsel 0%nat).
Defined.

Lemma top_k_one_is_deterministic_witness :
  0 < 1 /\
  exists i, 1%Z = Z.of_nat i /\ (i < length first_scores)%nat.
Proof.
  split; [reflexivity | ].
  destruct (top_k_one_is_deterministic rat_exp sort_select sorted_indices
              sort_select_contract sorted_indices_contract
              1 half_rng high_rng first_scores 0 0 1 1 1%Z 1%Z)
    as (_ & _ & _ & i & Hi & Hlt & _).
  - reflexivity.
  - vm_compute. reflexivity.
  - vm_compute. reflexivity.
  - exists i. split; [exact Hi | exact Hlt].
Defined.

Lemma successor_model_well_formed (t : list Z) (h : option nat) :
  exists v, last_position (fst (successor_model t h)) = Ok v /\ v <> [].
Proof.
  eexists. split; [reflexivity | discriminate].
Qed.

Lemma greedy_generate_returns_witness :
  0 <= 0 /\
  exists st,
    generate_run rat_exp sort_select sorted_indices nat successor_model
                 plain_tokenizer 0 (Some 9%Z) 3 half_rng = Ok st.
Proof.
  split; [apply Qle_refl | ].
  destruct (greedy_generate_returns rat_exp sort_select sorted_indices nat
              successor_model plain_tokenizer 0 (Some 9%Z) 3 half_rng)
    as (st & Hrun & _).
  - apply Qle_refl.
  - exact successor_model_well_formed.
  - exists st. exact Hrun.
Defined.
